(** * MCP example server: tool dispatch, bearer authentication and the
      session-to-transport registry

    The repository holds three variants of one Express/MCP server:
    - [src/src/index.ts]: authenticated routes, one global server, no registry;
    - [src/mcp-server/src/index.ts]: a registry keyed by [Date.now().toString()],
      unauthenticated routes, a message endpoint that only acknowledges;
    - [src/unnamed/part_000]: a registry of [{transport, server}] entries, a
      [currentTransport] marker and a message endpoint that forwards to it.

    The tool handler and the [authenticate] middleware are the same text in the
    three files.  JavaScript strings are sequences of UTF-16 code units; the
    engine's built-ins ([eval], [Date], [toUpperCase], number formatting) are
    taken as a [Host] the handlers are run against. *)

From Stdlib Require Import Floats DecimalZ DecimalPos QArith.
From stdpp Require Import gmap strings list.

Set Warnings "-register-all".
Local Open Scope N_scope.

(** ** JavaScript values *)

Module JS.

(** A string is its sequence of UTF-16 code units. *)
Abbreviation jsstring := (list N).

(** An ASCII literal of the source as code units. *)
Definition js (s : string) : jsstring :=
  Ascii.N_of_ascii <$> String.list_ascii_of_string s.

(** The values a parsed JSON request can carry, plus [JHostObject] for an
    object made by the engine itself (what [eval] returns for a regular
    expression literal, say), known only through the host. *)
Inductive JSValue :=
| JUndefined
| JNull
| JBool (b : bool)
| JNumber (x : float)
| JString (s : jsstring)
| JArray (items : list JSValue)
| JObject (props : list (jsstring * JSValue))
| JHostObject (tag : N).

(** [!!v] of the source: ToBoolean. *)
Definition ToBoolean (v : JSValue) : bool :=
  match v with
  | JUndefined | JNull => false
  | JBool b => b
  | JNumber x => negb (PrimFloat.is_zero x || PrimFloat.is_nan x)
  | JString s => negb (bool_decide (s = []))
  | JArray _ | JObject _ | JHostObject _ => true
  end.

(** Every exception in these handlers is an [Error] instance: the ones the
    source makes with [new Error(...)] and the engine's own TypeError,
    RangeError and SyntaxError.  Only [message] is ever read. *)
Record Error := mkError { message : jsstring }.

(** An abrupt ([inl], thrown) or normal ([inr]) completion. *)
Definition Completion (A : Type) : Type := Error + A.

Definition throw {A} (msg : jsstring) : Completion A := inl (mkError msg).

#[global] Instance Completion_ret : MRet Completion := fun A a => inr a.
#[global] Instance Completion_bind : MBind Completion := fun A B k c =>
  match c with
  | inl e => inl e
  | inr a => k a
  end.

(** [args?.key]: [undefined] when [args] is missing or has no such property. *)
Fixpoint get_property (props : list (jsstring * JSValue)) (key : jsstring) : JSValue :=
  match props with
  | [] => JUndefined
  | (k, v) :: rest => if bool_decide (k = key) then v else get_property rest key
  end.

Definition optional_get (args : option (list (jsstring * JSValue))) (key : jsstring) : JSValue :=
  match args with
  | None => JUndefined
  | Some props => get_property props key
  end.

(** What the handlers ask of the engine. *)
Record Host := {
  (** [eval(code)] *)
  host_eval : jsstring -> Completion JSValue;
  (** [new Date().toLocaleString()] for [None],
      [new Date().toLocaleString("en-US", { timeZone: tz })] for [Some tz] *)
  host_toLocaleString : option JSValue -> Completion jsstring;
  (** ToString of a number or an object inside a template literal *)
  host_ToString : JSValue -> Completion jsstring;
  (** [String.prototype.toUpperCase] *)
  host_toUpperCase : jsstring -> jsstring;
  (** message of the TypeError for calling [what], which is not a function *)
  host_not_a_function : jsstring -> jsstring;
}.

(** ToString as a template literal applies it. *)
Definition ToString (h : Host) (v : JSValue) : Completion jsstring :=
  match v with
  | JUndefined => mret (js "undefined")
  | JNull => mret (js "null")
  | JBool true => mret (js "true")
  | JBool false => mret (js "false")
  | JString s => mret s
  | JNumber _ | JArray _ | JObject _ | JHostObject _ => host_ToString h v
  end.

(** [s.startsWith(p)] *)
Definition startsWith (s p : jsstring) : bool :=
  bool_decide (take (length p) s = p).

(** [s.substring(n)] *)
Definition substring (s : jsstring) (n : nat) : jsstring := drop n s.

(** Decimal digits of [Number.prototype.toString] on an integer. *)
Fixpoint digits (d : Decimal.uint) : jsstring :=
  match d with
  | Decimal.Nil => []
  | Decimal.D0 d => 48 :: digits d
  | Decimal.D1 d => 49 :: digits d
  | Decimal.D2 d => 50 :: digits d
  | Decimal.D3 d => 51 :: digits d
  | Decimal.D4 d => 52 :: digits d
  | Decimal.D5 d => 53 :: digits d
  | Decimal.D6 d => 54 :: digits d
  | Decimal.D7 d => 55 :: digits d
  | Decimal.D8 d => 56 :: digits d
  | Decimal.D9 d => 57 :: digits d
  end.

(** [n.toString()] and [`${n}`] for an integer-valued number below 1e21,
    which is what [Date.now()] returns. *)
Definition Number_toString (n : Z) : jsstring :=
  match Z.to_int n with
  | Decimal.Pos d => digits d
  | Decimal.Neg d => 45 :: digits d
  end.

End JS.

Import JS.


(** ** Tool dispatch: the [CallToolRequestSchema] handler *)

Module Tools.

(** [\s] of a regular expression without the [u] flag: WhiteSpace and
    LineTerminator code units. *)
Definition is_whitespace (c : N) : bool :=
  (9 <=? c) && (c <=? 13)
  || (c =? 32) || (c =? 160) || (c =? 5760)
  || (8192 <=? c) && (c <=? 8202)
  || (c =? 8232) || (c =? 8233) || (c =? 8239) || (c =? 8287)
  || (c =? 12288) || (c =? 65279).

(** Membership in the class [[0-9+\-*/().\s]]. *)
Definition allowed_char (c : N) : bool :=
  (48 <=? c) && (c <=? 57)
  || (c =? 43) || (c =? 45) || (c =? 42) || (c =? 47)
  || (c =? 40) || (c =? 41) || (c =? 46)
  || is_whitespace c.

(** [expression.replace(/[^0-9+\-*/().\s]/g, "")] *)
Definition sanitize (expression : jsstring) : jsstring :=
  filter (fun c => allowed_char c = true) expression.

(** The single [{ type: "text", text }] item of a result and its [isError]
    flag ([false] where the source leaves the property out). *)
Record ToolResult := mkResult { text : JSValue; isError : bool }.

Section Handler.
Context (h : Host).

(** [case "get_current_time"] *)
Definition get_current_time (args : option (list (jsstring * JSValue)))
  : Completion ToolResult :=
  let timezone := optional_get args (js "timezone") in
  timeString ← (if ToBoolean timezone
                then host_toLocaleString h (Some timezone)
                else host_toLocaleString h None);
  where_ ← (if ToBoolean timezone
            then tz ← ToString h timezone; mret (js " in " ++ tz)
            else mret []);
  mret (mkResult (JString (js "Current time" ++ where_ ++ js ": " ++ timeString)) false).

(** The checks of [case "calculate"] that come before [eval]: the presence
    test and the character test.  The normal completion is [sanitized], the
    string handed to [eval]. *)
Definition calculate_validate (expression : JSValue) : Completion jsstring :=
  if negb (ToBoolean expression) then throw (js "Expression is required")
  else match expression with
       | JString e =>
           let sanitized := sanitize e in
           if bool_decide (sanitized ≠ e)
           then throw (js "Invalid characters in expression")
           else mret sanitized
       | _ => throw (host_not_a_function h (js "expression.replace"))
       end.

(** [case "calculate"] *)
Definition calculate (args : option (list (jsstring * JSValue)))
  : Completion ToolResult :=
  let expression := optional_get args (js "expression") in
  sanitized ← calculate_validate expression;
  result ← host_eval h sanitized;
  shown_expression ← ToString h expression;
  shown_result ← ToString h result;
  mret (mkResult (JString (shown_expression ++ js " = " ++ shown_result)) false).

(** [case "echo"] *)
Definition echo (args : option (list (jsstring * JSValue)))
  : Completion ToolResult :=
  let message := optional_get args (js "message") in
  let uppercase := optional_get args (js "uppercase") in
  if negb (ToBoolean message) then throw (js "Message is required")
  else
    output ← (if ToBoolean uppercase
              then match message with
                   | JString m => mret (JString (host_toUpperCase h m))
                   | _ => throw (host_not_a_function h (js "message.toUpperCase"))
                   end
              else mret message);
    mret (mkResult output false).

(** The [switch (name)] inside the [try] block. *)
Definition tool_switch (name : jsstring) (args : option (list (jsstring * JSValue)))
  : Completion ToolResult :=
  if bool_decide (name = js "get_current_time") then get_current_time args
  else if bool_decide (name = js "calculate") then calculate args
  else if bool_decide (name = js "echo") then echo args
  else throw (js "Unknown tool: " ++ name).

(** How the promise of the [async] handler settles: resolved with a result,
    or rejected with an exception that escaped the handler. *)
Inductive Settled :=
| Resolved (r : ToolResult)
| Rejected (e : Error).

(** The handler: [try { switch ... } catch (error) { ... isError: true }].
    [name] and [args] are [request.params.name] and
    [request.params.arguments], which the SDK has checked against
    [CallToolRequestSchema] before it calls the handler: a string, and an
    object or [undefined].  A thrown [error] is an [Error] instance, so the
    [catch] reads [error.message]. *)
Definition call_tool (name : jsstring) (args : option (list (jsstring * JSValue)))
  : Settled :=
  match tool_switch name args with
  | inr r => Resolved r
  | inl error =>
      let errorMessage := message error in
      Resolved (mkResult (JString (js "Error: " ++ errorMessage)) true)
  end.

End Handler.

End Tools.

(** ** Express requests, responses and the [authenticate] middleware *)

Module Express.

(** What the handlers can see of a request.  [session_id] is the session
    identifier the client sent along (the value it was given in
    [X-Session-ID]), if any. *)
Record Request := mkRequest {
  authorization : option jsstring;   (* req.headers.authorization *)
  session_id : option jsstring;
  req_body : JSValue;
}.

(** [res.status(code).json(value)] and [res.status(code).end()]. *)
Record Response := mkResponse {
  status : N;
  json : option JSValue;
}.

(** A middleware either answers the request itself or calls [next()]. *)
Inductive Middleware :=
| Respond (r : Response)
| Next.

(** [app.METHOD(path, middleware, handler)]: the handler runs only when the
    middleware calls [next()]. *)
Definition guarded {S : Type} (middleware : Request -> Middleware)
    (handler : S -> Request -> Response * S) (st : S) (req : Request)
  : Response * S :=
  match middleware req with
  | Respond r => (r, st)
  | Next => handler st req
  end.

End Express.

Module Auth.
Import Express.

(** [process.env.API_KEY || "your-secret-api-key-change-this"] *)
Definition API_KEY (env : option jsstring) : jsstring :=
  match env with
  | Some (c :: k) => c :: k
  | Some [] | None => js "your-secret-api-key-change-this"
  end.

Definition error_body (msg : string) : option JSValue :=
  Some (JObject [(js "error", JString (js msg))]).

(** [authenticate] *)
Definition authenticate (key : jsstring) (req : Request) : Middleware :=
  match authorization req with
  | None => Respond (mkResponse 401 (error_body "Missing or invalid authorization header"))
  | Some authHeader =>
      if bool_decide (authHeader = []) || negb (startsWith authHeader (js "Bearer "))
      then Respond (mkResponse 401 (error_body "Missing or invalid authorization header"))
      else
        let token := substring authHeader 7 in
        if bool_decide (token ≠ key)
        then Respond (mkResponse 403 (error_body "Invalid API key"))
        else Next
  end.

End Auth.

(** ** [src/src/index.ts]: authenticated routes, no registry *)

Module Src.
Import Express.

(** [app.post("/message", authenticate, ...)] *)
Definition post_message {S : Type} (key : jsstring) : S -> Request -> Response * S :=
  guarded (Auth.authenticate key) (fun st _ => (mkResponse 200 None, st)).

End Src.

(** ** The session registry: a JavaScript [Map] keyed by strings *)

Module JSMap.

Section Methods.
Context {V : Type}.

(** [m.set(key, value)] *)
Definition set (m : gmap jsstring V) (key : jsstring) (value : V) : gmap jsstring V :=
  <[key := value]> m.

(** [m.delete(key)] *)
Definition delete (m : gmap jsstring V) (key : jsstring) : gmap jsstring V :=
  base.delete key m.

(** [m.get(key)], [None] for [undefined] *)
Definition get (m : gmap jsstring V) (key : jsstring) : option V := m !! key.

(** [m.size] *)
Definition size (m : gmap jsstring V) : nat := base.size m.

End Methods.

End JSMap.

(** ** [src/mcp-server/src/index.ts]: registry keyed by the clock *)

Module McpServer.
Import Express.

(** A [new SSEServerTransport("/message", res)], known by its identity. *)
Record SSEServerTransport := mkTransport { oid : nat }.

Record State := mkState {
  transports : gmap jsstring SSEServerTransport;  (* const transports = new Map() *)
  closeListeners : list jsstring;  (* session ids captured by req.on("close", ...) *)
  next_oid : nat;                  (* identity of the next object made by new *)
}.

Definition initial : State := mkState ∅ [] 0.

(** [Date.now().toString()] *)
Definition sessionId (now : Z) : jsstring := Number_toString now.

(** [app.get("/sse")]: [connect_ok] tells whether [await server.connect]
    returned; when it threw, the [catch] answers 500 and no close listener
    is installed. *)
Definition get_sse (now : Z) (connect_ok : bool) (st : State) : State :=
  let transport := mkTransport (next_oid st) in
  let sessionId := sessionId now in
  let transports' := JSMap.set (transports st) sessionId transport in
  mkState transports'
          (if connect_ok then closeListeners st ++ [sessionId] else closeListeners st)
          (S (next_oid st)).

(** The listener of [req.on("close")] for [sessionId]. *)
Definition on_close (sessionId : jsstring) (st : State) : State :=
  mkState (JSMap.delete (transports st) sessionId) (closeListeners st) (next_oid st).

(** [app.post("/message")] *)
Definition post_message (st : State) (req : Request) : Response * State :=
  (mkResponse 200 (Some (JObject [(js "received", JBool true)])), st).

Inductive Event :=
| GetSse (now : Z) (connect_ok : bool)
| Close (listener : nat)      (* the listener at this index fires, once *)
| PostMessage (req : Request).

Definition step (st : State) (ev : Event) : State :=
  match ev with
  | GetSse now connect_ok => get_sse now connect_ok st
  | Close i =>
      match closeListeners st !! i with
      | Some sessionId =>
          let st' := on_close sessionId st in
          mkState (transports st') (delete i (closeListeners st')) (next_oid st')
      | None => st
      end
  | PostMessage req => snd (post_message st req)
  end.

Definition run (evs : list Event) : State := foldl step initial evs.

(** The session identifiers the [GetSse] events of a run generate, in order. *)
Definition generated_ids (evs : list Event) : list jsstring :=
  omap (fun ev => match ev with GetSse now _ => Some (sessionId now) | _ => None end) evs.

(** The clock readings of those events. *)
Definition clock_readings (evs : list Event) : list Z :=
  omap (fun ev => match ev with GetSse now _ => Some now | _ => None end) evs.

End McpServer.

(** ** [src/unnamed/part_000]: registry with a most-recent marker *)

Module Part000.
Import Express.

(** What [transport.handlePostMessage(req, res)] did: it answered the
    request, or it threw, having already sent a response head or not. *)
Inductive PostOutcome :=
| Handled (r : Response)
| Threw (sent : option Response).

(** A [new SSEServerTransport("/message", res)]: its identity and its
    [handlePostMessage] method, if the SDK's class has one. *)
Record SSEServerTransport := mkTransport {
  oid : nat;
  handlePostMessage : option (Request -> PostOutcome);
}.

(** A [createServer()] instance. *)
Record Server := mkServer { server_oid : nat }.

Record Entry := mkEntry { transport : SSEServerTransport; server : Server }.

Record State := mkState {
  transports : gmap jsstring Entry;
  currentTransport : option SSEServerTransport;
  (* the [sessionId] and [transport] captured by each req.on("close") listener *)
  closeListeners : list (jsstring * SSEServerTransport);
  next_oid : nat;
}.

Definition initial : State := mkState ∅ None [] 0.

(** [`session-${Date.now()}-${Math.random().toString(36).substring(7)}`];
    [suffix] is the substring of the random draw. *)
Definition sessionId (now : Z) (suffix : jsstring) : jsstring :=
  js "session-" ++ Number_toString now ++ js "-" ++ suffix.

(** [currentTransport === transport] *)
Definition same_object (a b : SSEServerTransport) : bool :=
  bool_decide (oid a = oid b).

(** [app.get("/sse")]: [method] is the [handlePostMessage] of the SDK's
    transport class; [connect_ok] tells whether [await
    serverInstance.connect(transport)] returned, after which the close
    listener is installed. *)
Definition get_sse (now : Z) (suffix : jsstring)
    (method : option (Request -> PostOutcome)) (connect_ok : bool) (st : State)
  : State :=
  let sessionId := sessionId now suffix in
  let transport := mkTransport (next_oid st) method in
  let serverInstance := mkServer (S (next_oid st)) in
  let transports' :=
    JSMap.set (transports st) sessionId (mkEntry transport serverInstance) in
  mkState transports' (Some transport)
          (if connect_ok then closeListeners st ++ [(sessionId, transport)]
           else closeListeners st)
          (S (S (next_oid st))).

(** The listener of [req.on("close")] with its captured variables. *)
Definition on_close (sessionId : jsstring) (transport : SSEServerTransport)
    (st : State) : State :=
  mkState (JSMap.delete (transports st) sessionId)
          (match currentTransport st with
           | Some current => if same_object current transport then None else Some current
           | None => None
           end)
          (closeListeners st) (next_oid st).

(** The outcome of one posted message: the transport whose
    [handlePostMessage] was called, if any, and the response sent. *)
Record Routed := mkRouted {
  delivered_to : option SSEServerTransport;
  response : Response;
}.

(** [app.post("/message")] *)
Definition post_message (st : State) (req : Request) : Routed :=
  match currentTransport st with
  | Some current =>
      match handlePostMessage current with
      | Some handle =>
          match handle req with
          | Handled r => mkRouted (Some current) r
          | Threw (Some r) => mkRouted (Some current) r
          | Threw None =>
              mkRouted (Some current)
                       (mkResponse 500 (Auth.error_body "Message handling failed"))
          end
      | None => mkRouted None (mkResponse 202 None)
      end
  | None => mkRouted None (mkResponse 202 None)
  end.

Inductive Event :=
| GetSse (now : Z) (suffix : jsstring)
         (method : option (Request -> PostOutcome)) (connect_ok : bool)
| Close (listener : nat)      (* the listener at this index fires, once *)
| PostMessage (req : Request).

Definition step (st : State) (ev : Event) : State :=
  match ev with
  | GetSse now suffix method connect_ok => get_sse now suffix method connect_ok st
  | Close i =>
      match closeListeners st !! i with
      | Some (sessionId, transport) =>
          let st' := on_close sessionId transport st in
          mkState (transports st') (currentTransport st')
                  (delete i (closeListeners st')) (next_oid st')
      | None => st
      end
  | PostMessage _ => st
  end.

Definition run (evs : list Event) : State := foldl step initial evs.

(** The session identifiers the [GetSse] events of a run generate, in order. *)
Definition generated_ids (evs : list Event) : list jsstring :=
  omap (fun ev => match ev with
                  | GetSse now suffix _ _ => Some (sessionId now suffix)
                  | _ => None
                  end) evs.

(** The clock reading and random suffix of each of those events. *)
Definition draws (evs : list Event) : list (Z * jsstring) :=
  omap (fun ev => match ev with
                  | GetSse now suffix _ _ => Some (now, suffix)
                  | _ => None
                  end) evs.

(** [currentTransport] is [null] or the transport of a registered entry. *)
Definition current_registered (st : State) : Prop :=
  match currentTransport st with
  | None => True
  | Some current =>
      ∃ sessionId e, JSMap.get (transports st) sessionId = Some e ∧ transport e = current
  end.

(** The routing of section 4.2 of the specification, in its words: the
    session of a correlated identifier when it is registered, otherwise the
    transport marked most recent. *)
Definition spec_route_target (st : State) (req : Request) : option SSEServerTransport :=
  match session_id req ≫= JSMap.get (transports st) with
  | Some e => Some (transport e)
  | None => currentTransport st
  end.

(** Each pending close listener captured the transport its session
    identifier is registered with, if that identifier is still registered. *)
Definition listeners_agree (st : State) : Prop :=
  ∀ sessionId t e,
    (sessionId, t) ∈ closeListeners st ->
    JSMap.get (transports st) sessionId = Some e -> transport e = t.

(** Every identifier the state mentions is one of [ids]. *)
Definition ids_within (ids : list jsstring) (st : State) : Prop :=
  (∀ sessionId, is_Some (JSMap.get (transports st) sessionId) -> sessionId ∈ ids)
  ∧ (∀ sessionId t, (sessionId, t) ∈ closeListeners st -> sessionId ∈ ids).

End Part000.

(** ** Two engines to run the handlers against *)

Module Hosts.

(** An engine whose built-ins all throw. *)
Definition throwing : Host := {|
  host_eval := fun _ => throw (js "Unexpected end of input");
  host_toLocaleString := fun _ => throw (js "Invalid time zone specified");
  host_ToString := fun _ => throw (js "Cannot convert object to primitive value");
  host_toUpperCase := fun s => s;
  host_not_a_function := fun what => what ++ js " is not a function";
|}.

(** An engine whose [eval] returns [v] for every input and that prints
    every number and object as [shown]. *)
Definition constant (v : JSValue) (shown : jsstring) : Host := {|
  host_eval := fun _ => mret v;
  host_toLocaleString := fun _ => mret (js "1/1/2026, 12:00:00 AM");
  host_ToString := fun _ => mret shown;
  host_toUpperCase := fun s => s;
  host_not_a_function := fun what => what ++ js " is not a function";
|}.

End Hosts.

(** ** Three runs of [src/unnamed/part_000] *)

Module Scenarios.
Import Express Part000.

(** The SDK's [handlePostMessage] answering 202. *)
Definition accepting : option (Request -> PostOutcome) :=
  Some (fun _ => Handled (mkResponse 202 None)).

(** Two sessions opened one second apart. *)
Definition two_sessions : list Event :=
  [GetSse 1700000000000 (js "k3x9a") accepting true;
   GetSse 1700000001000 (js "p0q7z") accepting true].

(** The same, after which the connection of the second session closes. *)
Definition latest_closed : list Event := two_sessions ++ [Close 1%nat].

(** Two sessions opened in the same millisecond with the same random draw,
    after which the connection of the first one closes. *)
Definition colliding : list Event :=
  [GetSse 1700000000000 (js "k3x9a") accepting true;
   GetSse 1700000000000 (js "k3x9a") accepting true;
   Close 0%nat].

(** A message that names the first session of [two_sessions]. *)
Definition to_first : Request :=
  mkRequest None (Some (sessionId 1700000000000 (js "k3x9a"))) JNull.

End Scenarios.

(** ** The tool schema: [TOOLS] and the [ListToolsRequestSchema] handler *)

Module Schema.

(** One entry of [inputSchema.properties]. *)
Record Property := mkProperty {
  ptype : string;
  pdescription : string;
  pdefault : option JSValue;
}.

Record Tool := mkTool {
  name : jsstring;
  description : string;
  properties : list (jsstring * Property);
  required : list jsstring;   (* [] where the source has no [required] *)
}.

(** [const TOOLS: Tool[]] *)
Definition TOOLS : list Tool := [
  mkTool (js "get_current_time") "Get the current date and time"
    [(js "timezone",
      mkProperty "string"
        "Timezone (e.g., 'America/New_York', 'UTC'). Defaults to local timezone."
        None)]
    [];
  mkTool (js "calculate") "Perform a basic mathematical calculation"
    [(js "expression",
      mkProperty "string"
        "Mathematical expression to evaluate (e.g., '2 + 2', '10 * 5')" None)]
    [js "expression"];
  mkTool (js "echo") "Echo back a message with optional formatting"
    [(js "message", mkProperty "string" "The message to echo back" None);
     (js "uppercase",
      mkProperty "boolean" "Convert message to uppercase" (Some (JBool false)))]
    [js "message"]
].

(** The [ListToolsRequestSchema] handler: [{ tools: TOOLS }]. *)
Definition list_tools : list Tool := TOOLS.

End Schema.

(** ** Shapes of runs *)

Module Lifecycle.

(** Every [await ... connect(transport)] of the run returned. *)
Definition part000_connects (evs : list Part000.Event) : Prop :=
  Forall (fun ev => match ev with
                    | Part000.GetSse _ _ _ connect_ok => connect_ok = true
                    | _ => True
                    end) evs.

Definition mcp_connects (evs : list McpServer.Event) : Prop :=
  Forall (fun ev => match ev with
                    | McpServer.GetSse _ connect_ok => connect_ok = true
                    | _ => True
                    end) evs.

(** No [GET /sse] among the events. *)
Definition no_open (evs : list Part000.Event) : Prop :=
  Forall (fun ev => match ev with
                    | Part000.GetSse _ _ _ _ => False
                    | _ => True
                    end) evs.

(** The transports a state of [src/unnamed/part_000] still refers to: the
    marker, the registry entries and the variables captured by the pending
    close listeners. *)
Definition known (st : Part000.State) (t : Part000.SSEServerTransport) : Prop :=
  Part000.currentTransport st = Some t
  ∨ (∃ sessionId e,
       JSMap.get (Part000.transports st) sessionId = Some e
       ∧ Part000.transport e = t)
  ∨ (∃ sessionId, (sessionId, t) ∈ Part000.closeListeners st).

End Lifecycle.

(** ** Colliding sessions whose transport throws *)

Module Faults.
Import Express Part000.

(** A [handlePostMessage] that throws before it has sent anything. *)
Definition throwing : option (Request -> PostOutcome) :=
  Some (fun _ => Threw None).

(** [Scenarios.colliding] with that method: two sessions opened in the
    same millisecond with the same random draw, then the connection of the
    first one closes. *)
Definition colliding_throwing : list Event :=
  [GetSse 1700000000000 (js "k3x9a") throwing true;
   GetSse 1700000000000 (js "k3x9a") throwing true;
   Close 0%nat].

End Faults.

(** ** The message endpoint of [src/src/index.ts] behind [app.use] *)

Module App.
Import Express.

(** [app.use(cors()); app.use(express.json());] run in front of every
    route.  What the two library middlewares answer (a 400 for a body that
    does not parse, say) is theirs: [app_use] stands for the pair. *)
Definition post_message {S : Type} (app_use : Request -> Middleware)
    (key : jsstring) : S -> Request -> Response * S :=
  guarded app_use (Src.post_message key).

End App.

(** ** The arithmetic fragment of [eval]

    [eval] is the engine's.  On one fragment of its input language its
    result is fixed by the language standard and is modelled here: decimal
    literals, the binary operators [+ - * /], the unary signs, parentheses
    and white space, evaluated in IEEE 754 binary64.  Everything else (the
    operators [++ -- **], comments, regular-expression literals, literals
    with a leading zero, calls) is outside the fragment and left to the
    engine. *)

Module Arith.

Inductive token :=
| TNum (d : N) (k : nat)   (* the literal d / 10^k *)
| TPlus | TMinus | TStar | TSlash | TLParen | TRParen.









Inductive expr :=
| Num (d : N) (k : nat)
| Pos (a : expr)
| Neg (a : expr)
| Add (a b : expr)
| Sub (a b : expr)
| Mul (a b : expr)
| Div (a b : expr).









(** The mathematical value of an expression, a rational number; none when
    it divides by zero. *)
Fixpoint exact (e : expr) : option Q :=
  match e with
  | Num d k => Some (Z.of_N d # Z.to_pos (10 ^ Z.of_nat k))%Q
  | Pos a => exact a
  | Neg a => Qopp <$> exact a
  | Add a b => x ← exact a; y ← exact b; Some (x + y)%Q
  | Sub a b => x ← exact a; y ← exact b; Some (x - y)%Q
  | Mul a b => x ← exact a; y ← exact b; Some (x * y)%Q
  | Div a b =>
      x ← exact a; y ← exact b;
      if Qeq_bool y 0 then None else Some (x / y)%Q
  end.




End Arith.

(** * Properties *)

(** ** Strings and session identifiers *)

Section Strings.

Lemma digits_inj d1 d2 : digits d1 = digits d2 -> d1 = d2.
Proof.
  revert d2; induction d1; intros [] Heq; simpl in Heq;
    try discriminate; try reflexivity;
    injection Heq as Heq; f_equal; auto.
Qed.

Lemma digits_no_dash d : 45 ∉ digits d.
Proof.
  induction d; simpl; rewrite ?elem_of_cons; [apply not_elem_of_nil | ..];
    intros [Hd | Hin]; try discriminate; auto.
Qed.

Lemma digits_head d c rest : digits d = c :: rest -> c ≠ 45.
Proof.
  intros Heq ->. apply (digits_no_dash d). rewrite Heq. left.
Qed.

Lemma to_int_Pos_nonnil n d : Z.to_int n = Decimal.Pos d -> d ≠ Decimal.Nil.
Proof.
  destruct n as [|p|p]; simpl; intros Heq; try discriminate.
  - injection Heq as <-. discriminate.
  - injection Heq as <-. apply Unsigned.to_uint_nonnil.
Qed.

#[global] Instance Number_toString_inj : Inj (=) (=) Number_toString.
Proof.
  intros n1 n2. unfold Number_toString.
  destruct (Z.to_int n1) as [d1|d1] eqn:H1, (Z.to_int n2) as [d2|d2] eqn:H2;
    intros Heq.
  - apply digits_inj in Heq as ->. apply DecimalZ.to_int_inj. congruence.
  - apply to_int_Pos_nonnil in H1. destruct d1; try congruence;
      simpl in Heq; discriminate.
  - apply to_int_Pos_nonnil in H2. destruct d2; try congruence;
      simpl in Heq; discriminate.
  - injection Heq as Heq. apply digits_inj in Heq as ->.
    apply DecimalZ.to_int_inj. congruence.
Qed.

(** Two strings cut at their first dash agree on both sides of it. *)
Lemma split_at_dash (a1 a2 b1 b2 : jsstring) :
  45 ∉ a1 -> 45 ∉ a2 -> a1 ++ 45 :: b1 = a2 ++ 45 :: b2 -> a1 = a2 ∧ b1 = b2.
Proof.
  revert a2; induction a1 as [|c a1 IH]; intros [|c' a2] Hn1 Hn2 Heq; simpl in Heq.
  - by injection Heq as ->.
  - injection Heq as <- _. exfalso. apply Hn2. left.
  - injection Heq as -> _. exfalso. apply Hn1. left.
  - injection Heq as -> Heq.
    apply not_elem_of_cons in Hn1 as [_ Hn1].
    apply not_elem_of_cons in Hn2 as [_ Hn2].
    destruct (IH a2 Hn1 Hn2 Heq) as [-> ->]. done.
Qed.

Lemma Number_toString_dash n1 n2 (s1 s2 : jsstring) :
  Number_toString n1 ++ 45 :: s1 = Number_toString n2 ++ 45 :: s2 ->
  n1 = n2 ∧ s1 = s2.
Proof.
  intros Heq.
  cut (Number_toString n1 = Number_toString n2 ∧ s1 = s2).
  { intros [Hn ->]. split; [by apply (inj Number_toString)|done]. }
  revert Heq. unfold Number_toString.
  destruct (Z.to_int n1) as [d1|d1] eqn:H1, (Z.to_int n2) as [d2|d2] eqn:H2;
    simpl; intros Heq.
  - apply split_at_dash in Heq; auto using digits_no_dash.
  - apply to_int_Pos_nonnil in H1.
    destruct (digits d1) as [|c r] eqn:Hd.
    + destruct d1; simpl in Hd; congruence.
    + injection Heq as -> _. by apply digits_head in Hd.
  - apply to_int_Pos_nonnil in H2.
    destruct (digits d2) as [|c r] eqn:Hd.
    + destruct d2; simpl in Hd; congruence.
    + injection Heq as <- _. by apply digits_head in Hd.
  - injection Heq as Heq.
    apply split_at_dash in Heq as [-> ->]; auto using digits_no_dash.
Qed.

Lemma Part000_sessionId_inj n1 n2 s1 s2 :
  Part000.sessionId n1 s1 = Part000.sessionId n2 s2 -> n1 = n2 ∧ s1 = s2.
Proof.
  unfold Part000.sessionId. intros Heq.
  apply app_inv_head in Heq. by apply Number_toString_dash.
Qed.

Lemma startsWith_spec (s p : jsstring) :
  startsWith s p = true ↔ ∃ rest, s = p ++ rest.
Proof.
  unfold startsWith. rewrite bool_decide_eq_true. split.
  - intros Heq. exists (drop (length p) s).
    rewrite <- Heq at 1. by rewrite take_drop.
  - intros [rest ->]. by rewrite take_app_length.
Qed.

Lemma sanitize_unchanged (e : jsstring) :
  Tools.sanitize e = e ↔ ∀ c, c ∈ e -> Tools.allowed_char c = true.
Proof.
  unfold Tools.sanitize. induction e as [|c e IH]; simpl.
  - split; [intros _ c Hc; by apply elem_of_nil in Hc | done].
  - rewrite filter_cons. destruct (decide (Tools.allowed_char c = true)) as [Hc|Hc].
    + split.
      * intros Heq c' [->|Hin]%elem_of_cons; [done|].
        injection Heq as Heq. by apply IH.
      * intros Hall. f_equal. apply IH. intros c' Hin. apply Hall. by right.
    + split.
      * intros Heq. exfalso.
        assert (Hlen : (length (filter (λ c0, Tools.allowed_char c0 = true) e) ≤ length e)%nat)
          by apply length_filter.
        rewrite Heq in Hlen. simpl in Hlen. lia.
      * intros Hall. exfalso. apply Hc, Hall. left.
Qed.

End Strings.

(** ** Tool dispatch *)

Section ToolDispatch.
Import Tools.

Lemma allowed_examples :
  sanitize (js "2 + 2") = js "2 + 2" ∧ sanitize (js "10 * 5") = js "10 * 5"
  ∧ sanitize (js "DROP TABLE") = js " ".
Proof. by vm_compute. Qed.

Lemma calculate_validate_string (h : Host) (e : jsstring) :
  calculate_validate h (JString e) =
    if bool_decide (e = []) then throw (js "Expression is required")
    else if bool_decide (sanitize e = e) then mret e
    else throw (js "Invalid characters in expression").
Proof.
  unfold calculate_validate. simpl.
  destruct (bool_decide_reflect (e = [])) as [->|Hne]; simpl; [done|].
  destruct (bool_decide_reflect (sanitize e = e)) as [Heq|Hneq].
  - rewrite bool_decide_eq_false_2 by (intros Hn; by apply Hn). by rewrite Heq.
  - by rewrite bool_decide_eq_true_2.
Qed.

Lemma disallowed_iff (e : jsstring) :
  sanitize e ≠ e ↔ ∃ c, c ∈ e ∧ allowed_char c = false.
Proof.
  rewrite sanitize_unchanged, <- Forall_forall. split.
  - intros Hn. apply not_Forall_Exists in Hn; [|intros c; apply _].
    apply Exists_exists in Hn as (c & Hin & Hc). simpl in Hc.
    exists c. split; [done|]. by destruct (allowed_char c).
  - intros (c & Hin & Hc) Hall. rewrite Forall_forall in Hall.
    specialize (Hall c Hin). congruence.
Qed.

Lemma tool_switch_calculate (h : Host) args :
  tool_switch h (js "calculate") args = calculate h args.
Proof. reflexivity. Qed.

Lemma tool_switch_echo (h : Host) args :
  tool_switch h (js "echo") args = echo h args.
Proof. reflexivity. Qed.

Lemma tool_switch_unknown (h : Host) name args :
  name ≠ js "get_current_time" -> name ≠ js "calculate" -> name ≠ js "echo" ->
  tool_switch h name args = throw (js "Unknown tool: " ++ name).
Proof.
  intros H1 H2 H3. unfold tool_switch.
  by rewrite !bool_decide_eq_false_2.
Qed.

(** A rejected expression never reaches [eval]: the tool result is the
    error, whatever the engine. *)
Lemma calculate_rejected (h : Host) args err :
  calculate_validate h (optional_get args (js "expression")) = inl err ->
  call_tool h (js "calculate") args =
    Resolved (mkResult (JString (js "Error: " ++ message err)) true).
Proof.
  intros Hv. unfold call_tool. rewrite tool_switch_calculate.
  unfold calculate. by rewrite Hv.
Qed.

(** What [calculate] does with a string that passes both checks: the
    unchanged string goes to [eval] and the result is printed after it. *)
Lemma calculate_evaluates_input (h : Host) args (e : jsstring) :
  optional_get args (js "expression") = JString e ->
  e ≠ [] -> sanitize e = e ->
  calculate h args =
    (result ← host_eval h e;
     shown ← ToString h result;
     mret (mkResult (JString (e ++ js " = " ++ shown)) false)).
Proof.
  intros Hget Hne Hs. unfold calculate. rewrite Hget, calculate_validate_string.
  rewrite bool_decide_eq_false_2, bool_decide_eq_true_2 by done.
  simpl. by destruct (host_eval h e).
Qed.

End ToolDispatch.

Section ToolClaims.
Import Tools.

(** C5, as stated, fails: the empty string holds no character outside
    [[0-9+\-*/().\s]] and is rejected all the same, by the presence test
    that comes before the character test. *)
Lemma calculate_rejection_iff_counterexample :
  ¬ (∀ (h : Host) (e : jsstring),
       (∃ err, calculate_validate h (JString e) = inl err)
       ↔ (∃ c, c ∈ e ∧ allowed_char c = false)).
Proof.
  intros Hclaim.
  destruct (Hclaim Hosts.throwing []) as [Hrej _].
  destruct Hrej as (c & Hin & _).
  - eexists. reflexivity.
  - by apply elem_of_nil in Hin.
Qed.

(** C5, amended: [calculate] rejects a string before evaluating it if and
    only if the string is empty or holds a character outside
    [[0-9+\-*/().\s]]; a non-empty string is rejected with "Invalid
    characters in expression" exactly when it holds such a character; a
    string that passes is handed to [eval] unchanged; a rejected one gives
    the tool error whatever the engine would have computed; and
    "DROP TABLE" is rejected for its characters. *)
Theorem calculate_rejection_iff (h : Host) (e : jsstring) :
  ((∃ err, calculate_validate h (JString e) = inl err)
     ↔ (e = [] ∨ ∃ c, c ∈ e ∧ allowed_char c = false))
  ∧ (calculate_validate h (JString e) = throw (js "Invalid characters in expression")
     ↔ (e ≠ [] ∧ ∃ c, c ∈ e ∧ allowed_char c = false))
  ∧ (∀ sanitized, calculate_validate h (JString e) = inr sanitized -> sanitized = e)
  ∧ (∀ args err,
       optional_get args (js "expression") = JString e ->
       calculate_validate h (JString e) = inl err ->
       call_tool h (js "calculate") args =
         Resolved (mkResult (JString (js "Error: " ++ message err)) true))
  ∧ calculate_validate h (JString (js "DROP TABLE"))
    = throw (js "Invalid characters in expression").
Proof.
  rewrite calculate_validate_string.
  split; [|split; [|split; [|split]]].
  - destruct (bool_decide_reflect (e = [])) as [->|Hne].
    { split; [by left | intros _; by eexists]. }
    destruct (bool_decide_reflect (sanitize e = e)) as [Hs|Hs].
    + split; [intros [err Herr]; discriminate|].
      intros [?|Hbad]; [done|]. by apply disallowed_iff in Hbad.
    + split; [|intros _; by eexists].
      intros _. right. by apply disallowed_iff.
  - destruct (bool_decide_reflect (e = [])) as [->|Hne].
    { split; [intros Heq; vm_compute in Heq; discriminate | by intros [? _]]. }
    destruct (bool_decide_reflect (sanitize e = e)) as [Hs|Hs].
    + split; [discriminate|]. intros [_ Hbad]. by apply disallowed_iff in Hbad.
    + split; [|done]. intros _. split; [done|]. by apply disallowed_iff.
  - intros sanitized.
    destruct (bool_decide (e = [])); [discriminate|].
    destruct (bool_decide (sanitize e = e)); [|discriminate].
    intros Heq. injection Heq as <-. done.
  - intros args err Hget Hv. apply calculate_rejected.
    by rewrite Hget, calculate_validate_string.
  - reflexivity.
Qed.

Lemma calculate_rejection_iff_witness :
  call_tool (Hosts.constant (JNumber 4) (js "4")) (js "calculate")
            (Some [(js "expression", JString (js "DROP TABLE"))])
  = Resolved (mkResult (JString (js "Error: Invalid characters in expression")) true).
Proof.
  destruct (calculate_rejection_iff (Hosts.constant (JNumber 4) (js "4"))
              (js "DROP TABLE")) as (_ & _ & _ & Hcall & Hdrop).
  apply (Hcall _ (mkError (js "Invalid characters in expression"))).
  - reflexivity.
  - exact Hdrop.
Defined.

(** C7: for every tool name, every argument object and every behaviour of
    the engine, the handler's promise resolves, it never rejects; a failure
    raised inside the [switch] becomes the result [isError: true] with the
    text "Error: " followed by the failure's message, and an unknown tool
    name is such a failure. *)
Theorem call_tool_never_rejects (h : Host) (name : jsstring)
    (args : option (list (jsstring * JSValue))) :
  ∃ r, call_tool h name args = Resolved r
    ∧ (∀ e, tool_switch h name args = inl e ->
            r = mkResult (JString (js "Error: " ++ message e)) true)
    ∧ (∀ c, tool_switch h name args = inr c -> r = c)
    ∧ (name ≠ js "get_current_time" -> name ≠ js "calculate" -> name ≠ js "echo" ->
       r = mkResult (JString (js "Error: Unknown tool: " ++ name)) true).
Proof.
  unfold call_tool.
  destruct (tool_switch h name args) as [e|c] eqn:Hsw.
  - eexists. split; [reflexivity|]. split; [|split].
    + intros e' [= <-]. done.
    + intros c [=].
    + intros H1 H2 H3. rewrite tool_switch_unknown in Hsw by done.
      injection Hsw as <-. done.
  - eexists. split; [reflexivity|]. split; [|split].
    + intros e [=].
    + intros c' [= <-]. done.
    + intros H1 H2 H3. rewrite tool_switch_unknown in Hsw by done. discriminate.
Qed.

Lemma call_tool_never_rejects_witness :
  call_tool Hosts.throwing (js "calculate")
            (Some [(js "expression", JString (js "2 +"))])
  = Resolved (mkResult (JString (js "Error: Unexpected end of input")) true)
  ∧ call_tool Hosts.throwing (js "reboot") None
  = Resolved (mkResult (JString (js "Error: Unknown tool: reboot")) true).
Proof.
  split.
  - destruct (call_tool_never_rejects Hosts.throwing (js "calculate")
                (Some [(js "expression", JString (js "2 +"))]))
      as (r & -> & Herr & _).
    f_equal. apply (Herr (mkError (js "Unexpected end of input"))). reflexivity.
  - destruct (call_tool_never_rejects Hosts.throwing (js "reboot") None)
      as (r & -> & _ & _ & Hunknown).
    f_equal. apply Hunknown; vm_compute; discriminate.
Defined.

(** C10: an empty [expression] makes [calculate] answer the tool error
    "Expression is required", although the empty string holds no
    disallowed character, and an empty [message] makes [echo] answer the
    tool error "Message is required" instead of echoing it. *)
Theorem empty_string_is_required (h : Host)
    (args : option (list (jsstring * JSValue))) :
  (∀ c, c ∈ ([] : jsstring) -> allowed_char c = true)
  ∧ (optional_get args (js "expression") = JString [] ->
     call_tool h (js "calculate") args =
       Resolved (mkResult (JString (js "Error: Expression is required")) true))
  ∧ (optional_get args (js "message") = JString [] ->
     call_tool h (js "echo") args =
       Resolved (mkResult (JString (js "Error: Message is required")) true)).
Proof.
  split; [|split].
  - intros c Hin. by apply elem_of_nil in Hin.
  - intros Hget.
    apply (calculate_rejected h args (mkError (js "Expression is required"))).
    by rewrite Hget.
  - intros Hget. unfold call_tool. rewrite tool_switch_echo.
    unfold echo. by rewrite Hget.
Qed.

Lemma empty_string_is_required_witness :
  call_tool (Hosts.constant (JNumber 0) (js "0")) (js "calculate")
            (Some [(js "expression", JString [])])
  = Resolved (mkResult (JString (js "Error: Expression is required")) true)
  ∧ call_tool (Hosts.constant (JNumber 0) (js "0")) (js "echo")
              (Some [(js "message", JString []); (js "uppercase", JBool true)])
  = Resolved (mkResult (JString (js "Error: Message is required")) true).
Proof.
  split.
  - apply (empty_string_is_required (Hosts.constant (JNumber 0) (js "0"))
             (Some [(js "expression", JString [])])). reflexivity.
  - apply (empty_string_is_required (Hosts.constant (JNumber 0) (js "0"))
             (Some [(js "message", JString []); (js "uppercase", JBool true)])).
    reflexivity.
Defined.

End ToolClaims.

(** ** The session registry *)

Section Registry.
Context {V : Type}.
Implicit Types (m : gmap jsstring V) (a b c : jsstring).

Lemma get_set_eq m a v : JSMap.get (JSMap.set m a v) a = Some v.
Proof. apply lookup_insert_eq. Qed.

Lemma get_set_ne m a c v : c ≠ a -> JSMap.get (JSMap.set m a v) c = JSMap.get m c.
Proof. intros Hne. by apply lookup_insert_ne. Qed.

Lemma get_delete_eq m a : JSMap.get (JSMap.delete m a) a = None.
Proof. apply lookup_delete_eq. Qed.

Lemma get_delete_ne m a c : c ≠ a -> JSMap.get (JSMap.delete m a) c = JSMap.get m c.
Proof. intros Hne. by apply lookup_delete_ne. Qed.

Lemma delete_absent m a : JSMap.get m a = None -> JSMap.delete m a = m.
Proof. apply delete_id. Qed.

Lemma get_delete_Some m a c v :
  JSMap.get (JSMap.delete m a) c = Some v -> c ≠ a ∧ JSMap.get m c = Some v.
Proof.
  unfold JSMap.get, JSMap.delete. intros [Hne Hl]%lookup_delete_Some.
  split; [by intros ->|done].
Qed.

Lemma size_two_minus_one m a b va vb :
  a ≠ b -> JSMap.get m a = None -> JSMap.get m b = None ->
  JSMap.size (JSMap.delete (JSMap.set (JSMap.set m a va) b vb) a) = S (JSMap.size m).
Proof.
  unfold JSMap.size, JSMap.delete, JSMap.set, JSMap.get. intros Hne Ha Hb.
  rewrite delete_insert_ne, delete_insert_eq, delete_id by done.
  by rewrite map_size_insert_None.
Qed.

(** The Map methods by themselves: [set] inserts an entry or overwrites
    the one under the same identifier and leaves the others alone; [delete] removes the entry,
    leaves the others alone and does nothing for an identifier that is not
    registered; [get] gives the registered value or tells that there is
    none.  For two distinct identifiers, registering both in an empty
    registry and unregistering one leaves exactly one entry, the other
    one. *)
Theorem registry_contract m a b (va va' vb : V) :
  a ≠ b ->
  JSMap.get (JSMap.set m a va) a = Some va
  ∧ JSMap.get (JSMap.set (JSMap.set m a va) a va') a = Some va'
  ∧ JSMap.get (JSMap.set m a va) b = JSMap.get m b
  ∧ JSMap.get (JSMap.delete m a) a = None
  ∧ JSMap.get (JSMap.delete m a) b = JSMap.get m b
  ∧ (JSMap.get m a = None -> JSMap.delete m a = m)
  ∧ JSMap.delete (JSMap.delete m a) a = JSMap.delete m a
  ∧ (let both := JSMap.set (JSMap.set ∅ a va) b vb in
     JSMap.size (JSMap.delete both a) = 1%nat
     ∧ JSMap.get (JSMap.delete both a) a = None
     ∧ JSMap.get (JSMap.delete both a) b = Some vb
     ∧ ∀ c v, JSMap.get (JSMap.delete both a) c = Some v -> c = b ∧ v = vb).
Proof.
  intros Hne. repeat split.
  - apply get_set_eq.
  - apply get_set_eq.
  - by apply get_set_ne.
  - apply get_delete_eq.
  - by apply get_delete_ne.
  - apply delete_absent.
  - apply delete_absent, get_delete_eq.
  - by rewrite size_two_minus_one.
  - apply get_delete_eq.
  - rewrite get_delete_ne, get_set_eq; done.
  - apply get_delete_Some in H as [Hca H].
    destruct (decide (c = b)) as [->|Hcb]; [done|].
    rewrite !get_set_ne in H by done. done.
  - apply get_delete_Some in H as [Hca H].
    destruct (decide (c = b)) as [->|Hcb].
    + rewrite get_set_eq in H. congruence.
    + rewrite !get_set_ne in H by done. done.
Qed.

End Registry.

(** ** Runs of [src/unnamed/part_000] *)

Section Part000Runs.
Import Express Part000.

Lemma run_snoc evs ev : run (evs ++ [ev]) = step (run evs) ev.
Proof. unfold run. by rewrite foldl_app. Qed.

Lemma generated_ids_snoc evs ev :
  generated_ids (evs ++ [ev]) =
    generated_ids evs ++
      match ev with
      | GetSse now suffix _ _ => [sessionId now suffix]
      | _ => []
      end.
Proof. unfold generated_ids. rewrite omap_app. by destruct ev. Qed.

Lemma same_object_refl t : same_object t t = true.
Proof. unfold same_object. by apply bool_decide_eq_true. Qed.

(** Opening a session under an identifier no session used before keeps the
    marker registered and the listeners in agreement with the registry. *)
Lemma get_sse_preserves ids now suffix method ok st :
  sessionId now suffix ∉ ids ->
  ids_within ids st -> listeners_agree st ->
  current_registered (get_sse now suffix method ok st)
  ∧ listeners_agree (get_sse now suffix method ok st)
  ∧ ids_within (ids ++ [sessionId now suffix]) (get_sse now suffix method ok st).
Proof.
  intros Hfresh [Hkeys Hls] Hagree.
  set (sid := sessionId now suffix) in *.
  split; [|split].
  - unfold current_registered, get_sse. simpl.
    eexists sid, _. split; [apply get_set_eq | done].
  - intros sid' t e Hin Hget. unfold get_sse in Hin, Hget. simpl in Hin, Hget.
    fold sid in Hin, Hget.
    assert (Hcases : (sid', t) ∈ closeListeners st
                     ∨ (sid', t) = (sid, mkTransport (next_oid st) method)).
    { destruct ok; [|by left].
      apply elem_of_app in Hin as [Hin|Hin]; [by left|].
      apply list_elem_of_singleton in Hin. by right. }
    destruct Hcases as [Hold|[= -> ->]].
    + assert (sid' ≠ sid) by (intros ->; by apply Hfresh, (Hls _ t)).
      rewrite get_set_ne in Hget by done. by apply (Hagree sid').
    + rewrite get_set_eq in Hget. by injection Hget as <-.
  - split.
    + intros sid' Hsome. unfold get_sse in Hsome. simpl in Hsome. fold sid in Hsome.
      apply elem_of_app. destruct (decide (sid' = sid)) as [->|Hne].
      * right. by apply list_elem_of_singleton.
      * left. apply Hkeys. by rewrite get_set_ne in Hsome.
    + intros sid' t Hin. unfold get_sse in Hin. simpl in Hin. fold sid in Hin.
      apply elem_of_app. destruct ok; [|left; by apply (Hls _ t)].
      apply elem_of_app in Hin as [Hin|Hin]; [left; by apply (Hls _ t)|].
      apply list_elem_of_singleton in Hin as [= -> _].
      right. by apply list_elem_of_singleton.
Qed.

(** The close listener, fired for a session whose listener agrees with the
    registry, keeps the marker registered. *)
Lemma on_close_preserves sid t st :
  (sid, t) ∈ closeListeners st ->
  current_registered st -> listeners_agree st ->
  current_registered (on_close sid t st).
Proof.
  intros Hin Hreg Hagree. unfold current_registered, on_close in *. simpl.
  destruct (currentTransport st) as [current|]; [|done].
  destruct (same_object current t) eqn:Hsame; [done|].
  destruct Hreg as (sid' & e & Hget & He).
  exists sid', e. split; [|done].
  rewrite get_delete_ne; [done|].
  intros ->. rewrite (Hagree sid t e Hin Hget) in He. subst current.
  by rewrite same_object_refl in Hsame.
Qed.

Lemma step_close_preserves ids i st :
  ids_within ids st -> listeners_agree st -> current_registered st ->
  current_registered (step st (Close i))
  ∧ listeners_agree (step st (Close i))
  ∧ ids_within ids (step st (Close i)).
Proof.
  intros [Hkeys Hls] Hagree Hreg. simpl.
  destruct (closeListeners st !! i) as [[sid t]|] eqn:Hi; [|done].
  assert (Hin : (sid, t) ∈ closeListeners st) by by eapply list_elem_of_lookup_2.
  split; [|split].
  - by apply (on_close_preserves sid t st).
  - intros sid' t' e Hin' Hget. simpl in Hin', Hget.
    apply list_elem_of_delete_inv in Hin'.
    apply get_delete_Some in Hget as [_ Hget]. by apply (Hagree sid').
  - split; simpl.
    + intros sid' [e Hsome]. apply get_delete_Some in Hsome as [_ Hsome].
      apply Hkeys. by exists e.
    + intros sid' t' Hin'. apply list_elem_of_delete_inv in Hin'.
      by apply (Hls _ t').
Qed.

(** In a run whose generated identifiers are pairwise distinct, every state
    keeps the marker registered. *)
Lemma run_invariant evs :
  NoDup (generated_ids evs) ->
  current_registered (run evs) ∧ listeners_agree (run evs)
  ∧ ids_within (generated_ids evs) (run evs).
Proof.
  induction evs as [|ev evs IH] using rev_ind; intros Hnd.
  - split; [done|]. split.
    + intros sid t e Hin. by apply elem_of_nil in Hin.
    + split.
      * intros sid [e He]. unfold run in He. simpl in He. unfold JSMap.get in He.
        by rewrite lookup_empty in He.
      * intros sid t Hin. by apply elem_of_nil in Hin.
  - rewrite run_snoc, generated_ids_snoc in *.
    apply NoDup_app in Hnd as (Hnd & Hdisj & _).
    destruct (IH Hnd) as (Hreg & Hagree & Hwithin).
    destruct ev as [now suffix method ok | i | req].
    + apply get_sse_preserves; [|done..].
      intros Hin. apply (Hdisj _ Hin). left.
    + rewrite app_nil_r. by apply step_close_preserves.
    + rewrite app_nil_r. done.
Qed.

End Part000Runs.

(** ** Routing of posted messages *)

Section Routing.
Import Express Part000.

Lemma accepted_without_marker st req :
  currentTransport st = None ->
  post_message st req = mkRouted None (mkResponse 202 None).
Proof. intros Hnone. unfold post_message. by rewrite Hnone. Qed.

Lemma empty_registry_no_marker evs :
  NoDup (generated_ids evs) -> transports (run evs) = ∅ ->
  currentTransport (run evs) = None.
Proof.
  intros Hnd Hempty. destruct (run_invariant evs Hnd) as (Hreg & _).
  unfold current_registered in Hreg.
  destruct (currentTransport (run evs)) as [c|]; [|done].
  destruct Hreg as (sid & e & Hget & _).
  unfold JSMap.get in Hget. by rewrite Hempty, lookup_empty in Hget.
Qed.

(** C1, as stated, fails: with two sessions open, a message that carries
    the identifier of the first one, which the registry holds, is handed to
    the transport of the second one, the most recent. *)
Lemma router_correlation_counterexample :
  let st := run Scenarios.two_sessions in
  oid <$> spec_route_target st Scenarios.to_first = Some 0%nat
  ∧ oid <$> delivered_to (post_message st Scenarios.to_first) = Some 2%nat
  ∧ delivered_to (post_message st Scenarios.to_first)
    ≠ spec_route_target st Scenarios.to_first.
Proof.
  assert (H1 : oid <$> spec_route_target (run Scenarios.two_sessions) Scenarios.to_first
               = Some 0%nat) by (vm_compute; reflexivity).
  assert (H2 : oid <$> delivered_to (post_message (run Scenarios.two_sessions)
                                                    Scenarios.to_first)
               = Some 2%nat) by (vm_compute; reflexivity).
  intros st. split; [exact H1|]. split; [exact H2|].
  intros Heq. subst st. rewrite Heq, H1 in H2. discriminate.
Qed.

(** C1, amended: the router reads neither the registry nor a session
    identifier of the request.  It hands every message to the transport
    marked most recent, when there is one and it has a [handlePostMessage]
    method, and the response is then the transport's own; the transport a
    message is handed to depends on the marker alone; with no marker, or a
    marked transport without the method, it answers 202 and hands the
    message to nobody. *)
Theorem router_delivers_to_current (st : State) (req : Request) :
  (∀ c handle,
     currentTransport st = Some c -> handlePostMessage c = Some handle ->
     delivered_to (post_message st req) = Some c
     ∧ ∀ r, handle req = Handled r -> response (post_message st req) = r)
  ∧ (∀ t, delivered_to (post_message st req) = Some t -> currentTransport st = Some t)
  ∧ (∀ st' req',
       currentTransport st' = currentTransport st ->
       delivered_to (post_message st' req') = delivered_to (post_message st req))
  ∧ (currentTransport st = None
     ∨ (∃ c, currentTransport st = Some c ∧ handlePostMessage c = None) ->
     post_message st req = mkRouted None (mkResponse 202 None)).
Proof.
  split; [|split; [|split]].
  - intros c handle Hc Hh. unfold post_message. rewrite Hc, Hh.
    destruct (handle req) as [r|[r|]]; simpl; split; try done;
      intros r' [=]; by subst.
  - intros t. unfold post_message.
    destruct (currentTransport st) as [c|]; [|done].
    destruct (handlePostMessage c) as [handle|]; [|done].
    by destruct (handle req) as [r|[r|]].
  - intros st' req' Hsame. unfold post_message. rewrite Hsame.
    destruct (currentTransport st) as [c|]; [|done].
    destruct (handlePostMessage c) as [handle|]; [|done].
    by destruct (handle req) as [r|[r|]], (handle req') as [r'|[r'|]].
  - intros [Hnone|(c & Hc & Hh)].
    + by apply accepted_without_marker.
    + unfold post_message. by rewrite Hc, Hh.
Qed.

Lemma router_delivers_to_current_witness :
  oid <$> delivered_to (post_message (run Scenarios.two_sessions) Scenarios.to_first)
  = Some 2%nat
  ∧ response (post_message (run Scenarios.two_sessions) Scenarios.to_first)
    = mkResponse 202 None.
Proof.
  destruct (router_delivers_to_current (run Scenarios.two_sessions) Scenarios.to_first)
    as (Hdeliver & _).
  destruct (Hdeliver (mkTransport 2 Scenarios.accepting)
                     (fun _ => Handled (mkResponse 202 None)))
    as [Hto Hresp]; [vm_compute; reflexivity | reflexivity |].
  split.
  - rewrite Hto. reflexivity.
  - apply Hresp. reflexivity.
Defined.

(** C2, as stated, fails: after two colliding sessions and the close of
    the first, no session is registered, yet the marker still names the
    second transport and a posted message is handed to it; when that
    transport throws, the answer is the error 500.  And the endpoint of
    [src/mcp-server/src/index.ts] answers 200, not 202, with no session at
    all. *)
Lemma no_transport_accepted_counterexample :
  (let st := run Scenarios.colliding in
   JSMap.size (transports st) = 0%nat
   ∧ oid <$> delivered_to (post_message st Scenarios.to_first) = Some 2%nat
   ∧ post_message st Scenarios.to_first ≠ mkRouted None (mkResponse 202 None))
  ∧ (let st := run Faults.colliding_throwing in
     JSMap.size (transports st) = 0%nat
     ∧ response (post_message st Scenarios.to_first)
       = mkResponse 500 (Auth.error_body "Message handling failed"))
  ∧ JSMap.size (McpServer.transports McpServer.initial) = 0%nat
  ∧ (McpServer.post_message McpServer.initial Scenarios.to_first).1
    = mkResponse 200 (Some (JObject [(js "received", JBool true)])).
Proof.
  split; [|split; [|split]].
  - assert (Hto : oid <$> delivered_to (post_message (run Scenarios.colliding)
                                          Scenarios.to_first) = Some 2%nat)
      by by vm_compute.
    split; [by vm_compute|]. split; [exact Hto|].
    intros Heq. rewrite Heq in Hto. discriminate.
  - split; by vm_compute.
  - by vm_compute.
  - reflexivity.
Qed.

(** C2, amended: a message posted while no transport is marked for
    delivery (or the marked one has no [handlePostMessage]) is answered 202
    and handed to nobody; that is the case before any session was opened,
    and whenever the registry is empty in a run with pairwise distinct
    session identifiers.  The endpoint of
    [src/mcp-server/src/index.ts], which delivers nothing, answers 200 and
    leaves its registry as it was. *)
Theorem no_transport_accepted (req : Request) :
  (∀ st, currentTransport st = None
         ∨ (∃ c, currentTransport st = Some c ∧ handlePostMessage c = None) ->
         post_message st req = mkRouted None (mkResponse 202 None))
  ∧ post_message initial req = mkRouted None (mkResponse 202 None)
  ∧ (∀ evs, NoDup (generated_ids evs) -> transports (run evs) = ∅ ->
            post_message (run evs) req = mkRouted None (mkResponse 202 None))
  ∧ (∀ st, status (McpServer.post_message st req).1 = 200
           ∧ (McpServer.post_message st req).2 = st).
Proof.
  split; [|split; [|split]].
  - intros st [Hnone|(c & Hc & Hh)].
    + by apply accepted_without_marker.
    + unfold post_message. by rewrite Hc, Hh.
  - by apply accepted_without_marker.
  - intros evs Hnd Hempty. by apply accepted_without_marker, empty_registry_no_marker.
  - done.
Qed.

Lemma no_transport_accepted_witness :
  post_message (run [GetSse 1700000000000 (js "k3x9a") Scenarios.accepting true;
                     Close 0%nat])
               Scenarios.to_first
  = mkRouted None (mkResponse 202 None).
Proof.
  destruct (no_transport_accepted Scenarios.to_first) as (_ & _ & Hempty & _).
  apply Hempty.
  - apply (bool_decide_unpack _). by vm_compute.
  - by vm_compute.
Defined.

End Routing.

(** ** The most-recent marker and the registry *)

Section Marker.
Import Express Part000.

(** C9, as stated, fails: when two sessions are opened in the same
    millisecond with the same random draw, the second registration takes
    the place of the first, the close of the first connection deletes that
    entry, and the marker is left on a transport the registry no longer
    holds. *)
Lemma marker_registered_counterexample :
  let st := run Scenarios.colliding in
  transports st = ∅
  ∧ oid <$> currentTransport st = Some 2%nat
  ∧ ¬ current_registered st.
Proof.
  assert (Hmap : transports (run Scenarios.colliding) = ∅) by by vm_compute.
  assert (Hcur : currentTransport (run Scenarios.colliding)
                 = Some (mkTransport 2 Scenarios.accepting)) by by vm_compute.
  intros st. subst st. split; [exact Hmap|]. split; [by rewrite Hcur|].
  unfold current_registered. rewrite Hcur, Hmap.
  intros (sid & e & Hget & _). unfold JSMap.get in Hget.
  by rewrite lookup_empty in Hget.
Qed.

(** C9, amended: in every state of a run whose generated session
    identifiers are pairwise distinct, [currentTransport] is [null] or the
    transport of an entry of the registry.  The close listener sets the
    marker to [null] exactly when the transport it captured is the marked
    one, and leaves it alone otherwise; after the close of the marked
    session every message is answered 202 and handed to nobody, while the
    entries of all other sessions stay in the registry. *)
Theorem marker_registered (evs : list Event) :
  NoDup (generated_ids evs) ->
  current_registered (run evs)
  ∧ (∀ st sid t c,
       currentTransport st = Some c ->
       (currentTransport (on_close sid t st) = None ↔ oid c = oid t)
       ∧ (oid c ≠ oid t -> currentTransport (on_close sid t st) = Some c))
  ∧ (∀ st sid t c req,
       currentTransport st = Some c -> oid c = oid t ->
       post_message (on_close sid t st) req = mkRouted None (mkResponse 202 None)
       ∧ ∀ sid', sid' ≠ sid ->
           JSMap.get (transports (on_close sid t st)) sid'
           = JSMap.get (transports st) sid').
Proof.
  intros Hnd. split; [by apply run_invariant|]. split.
  - intros st sid t c Hc. unfold on_close. simpl. rewrite Hc.
    unfold same_object. destruct (bool_decide_reflect (oid c = oid t)); split; done.
  - intros st sid t c req Hc Hsame. split.
    + apply accepted_without_marker. unfold on_close. simpl. rewrite Hc.
      unfold same_object. by rewrite bool_decide_eq_true_2.
    + intros sid' Hne. unfold on_close. simpl. by apply get_delete_ne.
Qed.

Lemma marker_registered_witness :
  current_registered (run Scenarios.latest_closed)
  ∧ currentTransport (run Scenarios.latest_closed) = None.
Proof.
  destruct (marker_registered Scenarios.latest_closed) as (Hreg & _).
  - apply (bool_decide_unpack _). by vm_compute.
  - split; [exact Hreg | by vm_compute].
Defined.

End Marker.

(** ** Generated session identifiers *)

Section Identifiers.

Lemma McpServer_generated_ids evs :
  McpServer.generated_ids evs = McpServer.sessionId <$> McpServer.clock_readings evs.
Proof.
  unfold McpServer.generated_ids, McpServer.clock_readings.
  induction evs as [|[now ok|i|req] evs IH]; simpl; [done| |done..].
  f_equal. exact IH.
Qed.

Lemma Part000_generated_ids evs :
  Part000.generated_ids evs
  = (fun d => Part000.sessionId d.1 d.2) <$> Part000.draws evs.
Proof.
  unfold Part000.generated_ids, Part000.draws.
  induction evs as [|[now suffix method ok|i|req] evs IH]; simpl; [done| |done..].
  f_equal. exact IH.
Qed.

(** C4, as stated, fails: two sessions created in the same millisecond get
    the same identifier from [Date.now().toString()], and in
    [src/unnamed/part_000] so do two sessions created in the same
    millisecond with the same random draw. *)
Lemma session_ids_unique_counterexample :
  ¬ (∀ evs, NoDup (McpServer.generated_ids evs))
  ∧ ¬ (∀ evs, NoDup (Part000.generated_ids evs)).
Proof.
  split; intros Hclaim.
  - specialize (Hclaim [McpServer.GetSse 1700000000000 true;
                        McpServer.GetSse 1700000000000 true]).
    apply NoDup_cons in Hclaim as [Hnotin _]. apply Hnotin. left.
  - specialize (Hclaim Scenarios.colliding).
    apply NoDup_cons in Hclaim as [Hnotin _]. apply Hnotin. left.
Qed.

(** C4, amended: a registry never holds two entries under one session
    identifier.  A generated identifier is a function of the clock reading
    of its creation (and, in [src/unnamed/part_000], of the random suffix
    too): two creations get the same identifier exactly when their clock
    readings (and suffixes) are the same, so the identifiers of a run are
    pairwise distinct whenever those readings are. *)
Theorem session_ids_follow_clock :
  (∀ st : McpServer.State, NoDup (map_to_list (McpServer.transports st)).*1)
  ∧ (∀ st : Part000.State, NoDup (map_to_list (Part000.transports st)).*1)
  ∧ (∀ n1 n2, McpServer.sessionId n1 = McpServer.sessionId n2 ↔ n1 = n2)
  ∧ (∀ n1 s1 n2 s2,
       Part000.sessionId n1 s1 = Part000.sessionId n2 s2 ↔ n1 = n2 ∧ s1 = s2)
  ∧ (∀ evs, NoDup (McpServer.clock_readings evs) -> NoDup (McpServer.generated_ids evs))
  ∧ (∀ evs, NoDup (Part000.draws evs) -> NoDup (Part000.generated_ids evs)).
Proof.
  split; [|split; [|split; [|split; [|split]]]].
  - intros st. apply NoDup_fst_map_to_list.
  - intros st. apply NoDup_fst_map_to_list.
  - intros n1 n2. split; [apply (inj Number_toString) | by intros ->].
  - intros n1 s1 n2 s2. split; [apply Part000_sessionId_inj | by intros [-> ->]].
  - intros evs Hnd. rewrite McpServer_generated_ids.
    apply NoDup_fmap; [|done]. intros n1 n2. apply (inj Number_toString).
  - intros evs Hnd. rewrite Part000_generated_ids.
    apply NoDup_fmap; [|done].
    intros [n1 s1] [n2 s2] Heq. simpl in Heq.
    by apply Part000_sessionId_inj in Heq as [-> ->].
Qed.

Lemma session_ids_follow_clock_witness :
  NoDup (Part000.generated_ids Scenarios.two_sessions)
  ∧ NoDup (McpServer.generated_ids [McpServer.GetSse 1700000000000 true;
                                     McpServer.GetSse 1700000000001 true]).
Proof.
  destruct session_ids_follow_clock as (_ & _ & _ & _ & Hmcp & Hpart).
  split.
  - apply Hpart. apply (bool_decide_unpack _). by vm_compute.
  - apply Hmcp. apply (bool_decide_unpack _). by vm_compute.
Defined.

End Identifiers.

(** ** Authentication *)

Section Authentication.
Import Express Auth.

Lemma API_KEY_nonempty env : API_KEY env ≠ [].
Proof. by destruct env as [[|c k]|]. Qed.

Lemma authenticate_bearer key req token :
  authorization req = Some (js "Bearer " ++ token) ->
  authenticate key req =
    if bool_decide (token ≠ key)
    then Respond (mkResponse 403 (error_body "Invalid API key"))
    else Next.
Proof.
  intros Hhdr. unfold authenticate. rewrite Hhdr.
  assert (Hstarts : startsWith (js "Bearer " ++ token) (js "Bearer ") = true)
    by (apply startsWith_spec; by exists token).
  rewrite Hstarts. reflexivity.
Qed.

Lemma authenticate_malformed key req :
  (∀ token, authorization req ≠ Some (js "Bearer " ++ token)) ->
  authenticate key req =
    Respond (mkResponse 401 (error_body "Missing or invalid authorization header")).
Proof.
  intros Hbad. unfold authenticate.
  destruct (authorization req) as [authHeader|]; [|done].
  destruct (startsWith authHeader (js "Bearer ")) eqn:Hstarts.
  - apply startsWith_spec in Hstarts as [token ->]. by destruct (Hbad token).
  - by rewrite orb_true_r.
Qed.

(** C8: on a route guarded by [authenticate], a request whose
    Authorization header is missing or is not "Bearer " followed by a token
    is answered 401, and one whose token differs from the configured key is
    answered 403; in both cases the handler behind the middleware does not
    run, so the state it works on, the session registry included, is what
    it was.  A request whose token is the key goes through to the
    handler. *)
Theorem authenticate_guards {S : Type} (key : jsstring)
    (handler : S -> Request -> Response * S) (st : S) (req : Request) :
  ((∀ token, authorization req ≠ Some (js "Bearer " ++ token)) ->
   guarded (authenticate key) handler st req
   = (mkResponse 401 (error_body "Missing or invalid authorization header"), st))
  ∧ (∀ token,
       authorization req = Some (js "Bearer " ++ token) -> token ≠ key ->
       guarded (authenticate key) handler st req
       = (mkResponse 403 (error_body "Invalid API key"), st))
  ∧ (authorization req = Some (js "Bearer " ++ key) ->
     guarded (authenticate key) handler st req = handler st req).
Proof.
  unfold guarded. split; [|split].
  - intros Hbad. by rewrite authenticate_malformed.
  - intros token Hhdr Hne. rewrite (authenticate_bearer _ _ token) by done.
    by rewrite bool_decide_eq_true_2.
  - intros Hhdr. rewrite (authenticate_bearer _ _ key) by done.
    by rewrite bool_decide_eq_false_2 by (intros Hn; by apply Hn).
Qed.

Lemma authenticate_guards_witness :
  let key := API_KEY None in
  let st := Part000.run Scenarios.two_sessions in
  Src.post_message key st (mkRequest None None JNull)
  = (mkResponse 401 (error_body "Missing or invalid authorization header"), st)
  ∧ Src.post_message key st (mkRequest (Some (js "Bearer guess")) None JNull)
    = (mkResponse 403 (error_body "Invalid API key"), st)
  ∧ Src.post_message key st (mkRequest (Some (js "Bearer " ++ key)) None JNull)
    = (mkResponse 200 None, st).
Proof.
  intros key st. unfold Src.post_message. split; [|split].
  - destruct (authenticate_guards key (fun (s : Part000.State) _ => (mkResponse 200 None, s))
                st (mkRequest None None JNull)) as (H401 & _).
    apply H401. intros token. discriminate.
  - destruct (authenticate_guards key (fun (s : Part000.State) _ => (mkResponse 200 None, s))
                st (mkRequest (Some (js "Bearer guess")) None JNull))
      as (_ & H403 & _).
    apply (H403 (js "guess")); [reflexivity | vm_compute; discriminate].
  - destruct (authenticate_guards key (fun (s : Part000.State) _ => (mkResponse 200 None, s))
                st (mkRequest (Some (js "Bearer " ++ key)) None JNull))
      as (_ & _ & Hnext).
    apply Hnext. reflexivity.
Defined.

End Authentication.

(** ** What [calculate] adds around [eval] *)

Section Calculate.
Import Tools.

(** The arithmetic itself is the engine's: on an engine whose [eval] gives
    4, printed "4", the tool answers "2 + 2 = 4". *)
Lemma calculate_formats_result :
  call_tool (Hosts.constant (JNumber 4) (js "4")) (js "calculate")
            (Some [(js "expression", JString (js "2 + 2"))])
  = Resolved (mkResult (JString (js "2 + 2 = 4")) false).
Proof. reflexivity. Qed.

(** An exception of [eval] (a syntax error, say) becomes a tool error. *)
Lemma calculate_eval_failure (h : Host) args (e : jsstring) err :
  optional_get args (js "expression") = JString e ->
  e ≠ [] -> sanitize e = e -> host_eval h e = inl err ->
  call_tool h (js "calculate") args
  = Resolved (mkResult (JString (js "Error: " ++ message err)) true).
Proof.
  intros Hget Hne Hs Heval. unfold call_tool.
  rewrite tool_switch_calculate, (calculate_evaluates_input h args e) by done.
  by rewrite Heval.
Qed.

End Calculate.

(** * Further properties of the handlers *)

(** ** [calculate]: the character filter and what reaches [eval] *)

Section CalculateFilter.
Import Tools.

Lemma allowed_char_cases (c : N) :
  allowed_char c = true ->
  (40 ≤ c ≤ 43) ∨ (45 ≤ c ≤ 57) ∨ (9 ≤ c ≤ 13) ∨ c = 32 ∨ 160 ≤ c.
Proof.
  unfold allowed_char, is_whitespace.
  rewrite !orb_true_iff, !andb_true_iff, !N.leb_le, !N.eqb_eq. lia.
Qed.

(** X1: the filter [replace(/[^0-9+\-*/().\s]/g, "")] keeps exactly the
    allowed code units, in order: filtering twice changes nothing more, the
    filter goes through concatenation, it never lengthens a string, and it
    returns its input exactly when it has nothing to remove. *)
Theorem sanitize_laws (e1 e2 : jsstring) :
  sanitize (sanitize e1) = sanitize e1
  ∧ sanitize (e1 ++ e2) = sanitize e1 ++ sanitize e2
  ∧ (∀ c, c ∈ sanitize e1 ↔ c ∈ e1 ∧ allowed_char c = true)
  ∧ (length (sanitize e1) ≤ length e1)%nat
  ∧ (sanitize e1 = e1 ↔ length (sanitize e1) = length e1).
Proof.
  assert (Hmem : ∀ e c, c ∈ sanitize e ↔ c ∈ e ∧ allowed_char c = true).
  { intros e c. unfold sanitize. rewrite list_elem_of_filter. tauto. }
  split; [|split; [|split; [|split]]].
  - apply sanitize_unchanged. intros c Hin. by apply Hmem in Hin as [_ ?].
  - unfold sanitize. apply filter_app.
  - apply Hmem.
  - apply length_filter.
  - split; [by intros ->|]. intros Hlen. apply sanitize_unchanged.
    unfold sanitize in Hlen. clear Hmem.
    induction e1 as [|c e IH]; [intros c Hin; by apply elem_of_nil in Hin|].
    rewrite filter_cons in Hlen.
    pose proof (length_filter (λ c0, allowed_char c0 = true) e) as Hle.
    destruct (decide (allowed_char c = true)) as [Hc|Hc]; simpl in Hlen; [|lia].
    intros c' [->|Hin]%elem_of_cons; [done|]. apply IH; [lia|done].
Qed.

(** X2: whatever [calculate] hands to [eval] is the caller's own string,
    not empty, made only of digits, the characters [+ - * / ( ) .] and
    white space: no letter, underscore, dollar sign, quote, backquote,
    comma, semicolon, equals sign, bracket, brace or backslash gets there,
    and an [expression] that is not a string never gets there. *)
Theorem eval_input_alphabet (h : Host) (expression : JSValue) (code : jsstring) :
  calculate_validate h expression = inr code ->
  expression = JString code ∧ code ≠ []
  ∧ ∀ c, c ∈ code ->
      allowed_char c = true
      ∧ ¬ (65 ≤ c ≤ 90) ∧ ¬ (97 ≤ c ≤ 122)
      ∧ c ∉ [34; 36; 39; 44; 59; 61; 91; 92; 93; 95; 96; 123; 125].
Proof.
  intros Hv.
  destruct expression as [| |b|x|e|items|props|tag];
    try (unfold calculate_validate in Hv; simpl in Hv;
         repeat case_match; discriminate).
  rewrite calculate_validate_string in Hv.
  destruct (bool_decide_reflect (e = [])) as [|Hne]; [discriminate|].
  destruct (bool_decide_reflect (sanitize e = e)) as [Hs|]; [|discriminate].
  injection Hv as <-. split; [done|]. split; [done|].
  intros c Hin. pose proof (proj1 (sanitize_unchanged e) Hs c Hin) as Hc.
  split; [done|]. apply allowed_char_cases in Hc.
  split; [lia|]. split; [lia|].
  rewrite !not_elem_of_cons. repeat split; try lia. apply not_elem_of_nil.
Qed.

Lemma eval_input_alphabet_witness :
  Forall (fun c => ¬ (97 ≤ c ≤ 122)) (js "(1 + 2) * 3.5").
Proof.
  apply Forall_forall. intros c Hin.
  destruct (eval_input_alphabet Hosts.throwing (JString (js "(1 + 2) * 3.5"))
              (js "(1 + 2) * 3.5")) as (_ & _ & Hall); [reflexivity|].
  by destruct (Hall c Hin) as (_ & _ & Hlower & _).
Defined.

End CalculateFilter.

(** ** The three tools, through [call_tool] *)

Section ToolBehaviour.
Import Tools.

(** X3: for a non-empty expression of allowed characters, [calculate]
    passes the expression itself to [eval]; when [eval] returns, the answer
    is the expression, " = " and the printed result, not flagged as an
    error; when [eval] or the printing throws, the answer is the tool error
    with that exception's message. *)
Theorem calculate_accepted (h : Host) (args : option (list (jsstring * JSValue)))
    (e : jsstring) :
  optional_get args (js "expression") = JString e ->
  e ≠ [] -> (∀ c, c ∈ e -> allowed_char c = true) ->
  (∀ v shown, host_eval h e = inr v -> ToString h v = inr shown ->
     call_tool h (js "calculate") args
     = Resolved (mkResult (JString (e ++ js " = " ++ shown)) false))
  ∧ (∀ err, host_eval h e = inl err ->
       call_tool h (js "calculate") args
       = Resolved (mkResult (JString (js "Error: " ++ message err)) true))
  ∧ (∀ v err, host_eval h e = inr v -> ToString h v = inl err ->
       call_tool h (js "calculate") args
       = Resolved (mkResult (JString (js "Error: " ++ message err)) true)).
Proof.
  intros Hget Hne Hall. apply sanitize_unchanged in Hall.
  unfold call_tool. rewrite tool_switch_calculate.
  rewrite (calculate_evaluates_input h args e) by done.
  split; [|split].
  - intros v shown Hv Hs. rewrite Hv. simpl. by rewrite Hs.
  - intros err Herr. by rewrite Herr.
  - intros v err Hv Hs. rewrite Hv. simpl. by rewrite Hs.
Qed.

Lemma calculate_accepted_witness :
  call_tool (Hosts.constant (JNumber 50) (js "50")) (js "calculate")
            (Some [(js "expression", JString (js "10 * 5"))])
  = Resolved (mkResult (JString (js "10 * 5 = 50")) false).
Proof.
  destruct (calculate_accepted (Hosts.constant (JNumber 50) (js "50"))
              (Some [(js "expression", JString (js "10 * 5"))]) (js "10 * 5"))
    as (Hok & _).
  - reflexivity.
  - vm_compute. discriminate.
  - apply sanitize_unchanged. reflexivity.
  - apply (Hok (JNumber 50) (js "50")); reflexivity.
Defined.

(** X4: an [expression] that is not a string is never evaluated.  A falsy
    one ([undefined], [null], [false], [0], [NaN]) is answered "Expression
    is required"; any other one (a number, [true], an array, an object)
    fails at [expression.replace] and is answered with the engine's
    TypeError message. *)
Theorem calculate_non_string (h : Host) (args : option (list (jsstring * JSValue))) :
  (∀ e, optional_get args (js "expression") ≠ JString e) ->
  call_tool h (js "calculate") args
  = Resolved (mkResult
      (JString (js "Error: " ++
         if ToBoolean (optional_get args (js "expression"))
         then host_not_a_function h (js "expression.replace")
         else js "Expression is required")) true).
Proof.
  intros Hns.
  assert (Hv : calculate_validate h (optional_get args (js "expression"))
               = throw (if ToBoolean (optional_get args (js "expression"))
                        then host_not_a_function h (js "expression.replace")
                        else js "Expression is required")).
  { unfold calculate_validate.
    destruct (optional_get args (js "expression")) as [| |b|x|e|items|props|tag];
      simpl; try done.
    - by destruct b.
    - by destruct (_ || _).
    - by destruct (Hns e). }
  by rewrite (calculate_rejected h args _ Hv).
Qed.

Lemma calculate_non_string_witness :
  call_tool (Hosts.constant (JNumber 5) (js "5")) (js "calculate")
            (Some [(js "expression", JNumber 5)])
  = Resolved (mkResult
      (JString (js "Error: expression.replace is not a function")) true)
  ∧ call_tool (Hosts.constant (JNumber 5) (js "5")) (js "calculate") None
    = Resolved (mkResult (JString (js "Error: Expression is required")) true).
Proof.
  split.
  - rewrite (calculate_non_string (Hosts.constant (JNumber 5) (js "5"))
               (Some [(js "expression", JNumber 5)])); [reflexivity|].
    intros e. discriminate.
  - rewrite (calculate_non_string (Hosts.constant (JNumber 5) (js "5")) None);
      [reflexivity|].
    intros e. discriminate.
Defined.

(** X5: [echo] of a non-empty string answers that string, unchanged when
    [uppercase] is missing or falsy and through [toUpperCase] when it is
    truthy; the answer is never flagged as an error.  Truthiness is
    JavaScript's: the string "false" for [uppercase] makes the answer
    upper case. *)
Theorem echo_string (h : Host) (args : option (list (jsstring * JSValue)))
    (m : jsstring) :
  optional_get args (js "message") = JString m -> m ≠ [] ->
  call_tool h (js "echo") args
  = Resolved (mkResult
      (JString (if ToBoolean (optional_get args (js "uppercase"))
                then host_toUpperCase h m else m)) false).
Proof.
  intros Hget Hne. unfold call_tool. rewrite tool_switch_echo.
  unfold echo. rewrite Hget. simpl.
  rewrite bool_decide_eq_false_2 by done. simpl.
  by destruct (ToBoolean (optional_get args (js "uppercase"))).
Qed.

Lemma echo_string_witness :
  call_tool Hosts.throwing (js "echo") (Some [(js "message", JString (js "hi"))])
  = Resolved (mkResult (JString (js "hi")) false)
  ∧ call_tool Hosts.throwing (js "echo")
      (Some [(js "message", JString (js "hi"));
             (js "uppercase", JString (js "false"))])
    = Resolved (mkResult (JString (host_toUpperCase Hosts.throwing (js "hi"))) false).
Proof.
  split.
  - rewrite (echo_string Hosts.throwing _ (js "hi")); [reflexivity..|].
    vm_compute. discriminate.
  - rewrite (echo_string Hosts.throwing _ (js "hi")); [reflexivity..|].
    vm_compute. discriminate.
Defined.

(** X6: [echo] of a [message] that is not a string.  A falsy one is
    answered "Message is required".  A truthy one (a number, [true], an
    array, an object) is handed back as it is, not turned into a string,
    when [uppercase] is falsy, and fails at [message.toUpperCase] with the
    engine's TypeError message when [uppercase] is truthy. *)
Theorem echo_non_string (h : Host) (args : option (list (jsstring * JSValue))) :
  (∀ m, optional_get args (js "message") ≠ JString m) ->
  call_tool h (js "echo") args
  = Resolved
      (if ToBoolean (optional_get args (js "message"))
       then if ToBoolean (optional_get args (js "uppercase"))
            then mkResult (JString (js "Error: " ++
                    host_not_a_function h (js "message.toUpperCase"))) true
            else mkResult (optional_get args (js "message")) false
       else mkResult (JString (js "Error: Message is required")) true).
Proof.
  intros Hns. unfold call_tool. rewrite tool_switch_echo. unfold echo.
  destruct (optional_get args (js "message")) as [| |b|x|m|items|props|tag];
    try (by destruct (Hns m)); simpl; try done;
    try (by destruct (ToBoolean (optional_get args (js "uppercase")))).
  - destruct b; simpl; [|done].
    by destruct (ToBoolean (optional_get args (js "uppercase"))).
  - destruct (_ || _); simpl; [done|].
    by destruct (ToBoolean (optional_get args (js "uppercase"))).
Qed.

Lemma echo_non_string_witness :
  call_tool Hosts.throwing (js "echo") (Some [(js "message", JArray [])])
  = Resolved (mkResult (JArray []) false)
  ∧ call_tool Hosts.throwing (js "echo")
      (Some [(js "message", JBool true); (js "uppercase", JBool true)])
    = Resolved (mkResult
        (JString (js "Error: message.toUpperCase is not a function")) true).
Proof.
  split.
  - rewrite (echo_non_string Hosts.throwing (Some [(js "message", JArray [])]));
      [reflexivity|]. intros m. discriminate.
  - rewrite (echo_non_string Hosts.throwing
               (Some [(js "message", JBool true); (js "uppercase", JBool true)]));
      [reflexivity|]. intros m. discriminate.
Defined.

End ToolBehaviour.

Section TimeAndSchema.
Import Tools.

(** X7: [get_current_time].  With [timezone] missing or falsy (the empty
    string too) the answer is "Current time: " and the engine's local
    rendering; with a non-empty string it is "Current time in ", the zone
    as given, ": " and the engine's rendering for that zone; and when the
    engine refuses the zone, the answer is the tool error carrying the
    engine's message. *)
Theorem get_current_time_cases (h : Host)
    (args : option (list (jsstring * JSValue))) :
  (ToBoolean (optional_get args (js "timezone")) = false ->
   ∀ timeString, host_toLocaleString h None = inr timeString ->
     call_tool h (js "get_current_time") args
     = Resolved (mkResult (JString (js "Current time: " ++ timeString)) false))
  ∧ (∀ tz timeString,
       optional_get args (js "timezone") = JString tz -> tz ≠ [] ->
       host_toLocaleString h (Some (JString tz)) = inr timeString ->
       call_tool h (js "get_current_time") args
       = Resolved (mkResult
           (JString (js "Current time in " ++ tz ++ js ": " ++ timeString)) false))
  ∧ (∀ err,
       host_toLocaleString h
         (if ToBoolean (optional_get args (js "timezone"))
          then Some (optional_get args (js "timezone")) else None) = inl err ->
       call_tool h (js "get_current_time") args
       = Resolved (mkResult (JString (js "Error: " ++ message err)) true)).
Proof.
  unfold call_tool.
  change (tool_switch h (js "get_current_time") args) with (get_current_time h args).
  unfold get_current_time. split; [|split].
  - intros Hfalsy ts Hts. rewrite Hfalsy, Hts. reflexivity.
  - intros tz ts Hget Hne Hts. rewrite Hget. simpl.
    rewrite bool_decide_eq_false_2 by done. simpl. rewrite Hts. reflexivity.
  - intros err Herr.
    destruct (ToBoolean (optional_get args (js "timezone"))); by rewrite Herr.
Qed.

Lemma get_current_time_cases_witness :
  call_tool (Hosts.constant JNull []) (js "get_current_time")
            (Some [(js "timezone", JString (js "UTC"))])
  = Resolved (mkResult
      (JString (js "Current time in UTC: 1/1/2026, 12:00:00 AM")) false)
  ∧ call_tool Hosts.throwing (js "get_current_time")
              (Some [(js "timezone", JString (js "Mars/Olympus"))])
    = Resolved (mkResult
        (JString (js "Error: Invalid time zone specified")) true).
Proof.
  split.
  - destruct (get_current_time_cases (Hosts.constant JNull [])
                (Some [(js "timezone", JString (js "UTC"))])) as (_ & Hzone & _).
    apply (Hzone (js "UTC")); [reflexivity | vm_compute; discriminate | reflexivity].
  - destruct (get_current_time_cases Hosts.throwing
                (Some [(js "timezone", JString (js "Mars/Olympus"))]))
      as (_ & _ & Hfail).
    apply (Hfail (mkError (js "Invalid time zone specified"))). reflexivity.
Defined.

(** X8: the schema served by the list-tools handler and the [switch] agree.
    The three listed names are distinct and every required property is a
    declared one; a name that is not listed is answered "Unknown tool: "
    and the name; and for a listed tool, a call that leaves out a property
    its schema requires is answered with a tool error. *)
Theorem schema_matches_dispatch (h : Host) (name : jsstring)
    (args : option (list (jsstring * JSValue))) :
  NoDup (Schema.name <$> Schema.list_tools)
  ∧ (∀ t f, t ∈ Schema.list_tools -> f ∈ Schema.required t ->
            f ∈ (Schema.properties t).*1)
  ∧ (name ∉ Schema.name <$> Schema.list_tools ->
     call_tool h name args
     = Resolved (mkResult (JString (js "Error: Unknown tool: " ++ name)) true))
  ∧ (∀ t f, t ∈ Schema.list_tools -> name = Schema.name t ->
            f ∈ Schema.required t -> optional_get args f = JUndefined ->
            ∃ msg, call_tool h name args = Resolved (mkResult (JString msg) true)).
Proof.
  split; [|split; [|split]].
  - apply (bool_decide_unpack _). by vm_compute.
  - intros t f Ht Hf. unfold Schema.list_tools, Schema.TOOLS in Ht.
    repeat (apply elem_of_cons in Ht as [->|Ht]); simpl in *;
      try (by apply elem_of_nil in Ht); try (by apply elem_of_nil in Hf).
    + apply list_elem_of_singleton in Hf as ->. left.
    + apply list_elem_of_singleton in Hf as ->. left.
  - intros Hnot. unfold call_tool. rewrite tool_switch_unknown; [done|..];
      intros ->; apply Hnot; unfold Schema.list_tools, Schema.TOOLS; simpl.
    + left.
    + right; left.
    + right; right; left.
  - intros t f Ht -> Hf Hget. unfold Schema.list_tools, Schema.TOOLS in Ht.
    repeat (apply elem_of_cons in Ht as [->|Ht]); simpl in *;
      try (by apply elem_of_nil in Ht); try (by apply elem_of_nil in Hf).
    + apply list_elem_of_singleton in Hf as ->.
      eexists. apply (calculate_rejected h args (mkError (js "Expression is required"))).
      by rewrite Hget.
    + apply list_elem_of_singleton in Hf as ->.
      eexists. unfold call_tool. rewrite tool_switch_echo. unfold echo.
      rewrite Hget. reflexivity.
Qed.

Lemma schema_matches_dispatch_witness :
  call_tool Hosts.throwing (js "echo") (Some [(js "uppercase", JBool true)])
  = Resolved (mkResult (JString (js "Error: Message is required")) true)
  ∧ call_tool Hosts.throwing (js "Echo") None
    = Resolved (mkResult (JString (js "Error: Unknown tool: Echo")) true).
Proof.
  destruct (schema_matches_dispatch Hosts.throwing (js "echo")
              (Some [(js "uppercase", JBool true)])) as (_ & _ & _ & Hreq).
  destruct (schema_matches_dispatch Hosts.throwing (js "Echo") None)
    as (_ & _ & Hunknown & _).
  split.
  - destruct (Hreq (Schema.mkTool (js "echo") "Echo back a message with optional formatting"
        [(js "message", Schema.mkProperty "string" "The message to echo back" None);
         (js "uppercase",
          Schema.mkProperty "boolean" "Convert message to uppercase" (Some (JBool false)))]
        [js "message"]) (js "message")) as [msg Hmsg].
    + right; right; left.
    + reflexivity.
    + left.
    + reflexivity.
    + reflexivity.
  - apply Hunknown. apply (bool_decide_unpack _). by vm_compute.
Defined.

End TimeAndSchema.

(** ** [authenticate], the configured key and the guarded message endpoint *)

Section AuthenticationCases.
Import Express Auth.

Lemma bearer_form (req : Request) :
  (∀ token, authorization req ≠ Some (js "Bearer " ++ token))
  ∨ (∃ token, authorization req = Some (js "Bearer " ++ token)).
Proof.
  destruct (authorization req) as [authHeader|]; [|by left].
  destruct (startsWith authHeader (js "Bearer ")) eqn:Hstarts.
  - apply startsWith_spec in Hstarts as [token ->]. right. by exists token.
  - left. intros token Heq. injection Heq as Heq.
    assert (Htrue : startsWith authHeader (js "Bearer ") = true)
      by (apply startsWith_spec; by exists token).
    rewrite Htrue in Hstarts. discriminate.
Qed.

(** X9: [authenticate] lets a request through exactly when its
    Authorization header is "Bearer " followed by the key, character for
    character; it answers 403 exactly when the header is "Bearer " followed
    by anything else, and 401 exactly when the header is missing or does
    not begin with "Bearer ".  It gives no other answer. *)
Theorem authenticate_exact (key : jsstring) (req : Request) :
  (authenticate key req = Next
   ↔ authorization req = Some (js "Bearer " ++ key))
  ∧ (authenticate key req
       = Respond (mkResponse 403 (error_body "Invalid API key"))
     ↔ ∃ token, authorization req = Some (js "Bearer " ++ token) ∧ token ≠ key)
  ∧ (authenticate key req
       = Respond (mkResponse 401 (error_body "Missing or invalid authorization header"))
     ↔ ∀ token, authorization req ≠ Some (js "Bearer " ++ token)).
Proof.
  destruct (bearer_form req) as [Hbad|[token Hhdr]].
  - rewrite (authenticate_malformed key req Hbad).
    split; [|split]; split; try done.
    + intros Hhdr. by destruct (Hbad key).
    + intros (token & Hhdr & _). by destruct (Hbad token).
  - rewrite (authenticate_bearer key req token Hhdr).
    destruct (bool_decide_reflect (token ≠ key)) as [Hne|Heq].
    + split; [|split]; split; try done.
      * intros Hkey. rewrite Hhdr in Hkey. injection Hkey as Hkey. done.
      * intros _. by exists token.
      * intros Hbad. by destruct (Hbad token).
    + assert (token = key) as -> by (destruct (decide (token = key)); [done|by destruct Heq]).
      split; [|split]; split; try done.
      * intros (token & Hhdr' & Hne). rewrite Hhdr in Hhdr'.
        injection Hhdr' as Hhdr'. by subst.
      * intros Hbad. by destruct (Hbad key).
Qed.

(** X10: the configured key is [process.env.API_KEY] when that is a
    non-empty string and the placeholder otherwise, so it is never empty: a
    header "Bearer " with nothing after it is always answered 403, and when
    the variable is unset or empty a request that carries the placeholder
    is let through. *)
Theorem API_KEY_default (env : option jsstring) (req : Request) :
  API_KEY env ≠ []
  ∧ (∀ k, k ≠ [] -> env = Some k -> API_KEY env = k)
  ∧ (authorization req = Some (js "Bearer ") ->
     authenticate (API_KEY env) req
     = Respond (mkResponse 403 (error_body "Invalid API key")))
  ∧ (env = None ∨ env = Some [] ->
     authorization req = Some (js "Bearer your-secret-api-key-change-this") ->
     authenticate (API_KEY env) req = Next).
Proof.
  split; [apply API_KEY_nonempty|]. split; [|split].
  - intros k Hk ->. by destruct k.
  - intros Hhdr. rewrite (authenticate_bearer _ req []) by done.
    rewrite bool_decide_eq_true_2; [done|].
    intros Hempty. by apply (API_KEY_nonempty env).
  - intros Henv Hhdr.
    assert (API_KEY env = js "your-secret-api-key-change-this") as ->
      by by destruct Henv as [->| ->].
    rewrite (authenticate_bearer _ req (js "your-secret-api-key-change-this")) by done.
    by rewrite bool_decide_eq_false_2 by (intros Hn; by apply Hn).
Qed.

Lemma API_KEY_default_witness :
  authenticate (API_KEY (Some []))
    (mkRequest (Some (js "Bearer your-secret-api-key-change-this")) None JNull)
  = Next
  ∧ API_KEY (Some (js "s3cret")) = js "s3cret".
Proof.
  destruct (API_KEY_default (Some [])
              (mkRequest (Some (js "Bearer your-secret-api-key-change-this")) None JNull))
    as (_ & _ & _ & Hplaceholder).
  destruct (API_KEY_default (Some (js "s3cret")) (mkRequest None None JNull))
    as (_ & Hset & _).
  split.
  - apply Hplaceholder; [by right | reflexivity].
  - apply Hset; [vm_compute; discriminate | reflexivity].
Defined.

(** The route [app.post("/message", authenticate, ...)] of
    [src/src/index.ts], for a request that has reached it: it answers 200,
    401 or 403 and nothing else, 200 exactly when the header is "Bearer "
    followed by the key, and it never changes the state it runs on. *)
Theorem src_post_message_answers {S : Type} (key : jsstring) (st : S) (req : Request) :
  (Src.post_message key st req).2 = st
  ∧ status (Src.post_message key st req).1 ∈ [200; 401; 403]
  ∧ (status (Src.post_message key st req).1 = 200
     ↔ authorization req = Some (js "Bearer " ++ key)).
Proof.
  unfold Src.post_message, guarded.
  destruct (bearer_form req) as [Hbad|[token Hhdr]].
  - rewrite (authenticate_malformed key req Hbad). simpl.
    split; [done|]. split; [set_solver|].
    split; [done|]. intros Hhdr. by destruct (Hbad key).
  - rewrite (authenticate_bearer key req token Hhdr).
    destruct (bool_decide_reflect (token ≠ key)) as [Hne|Heq]; simpl.
    + split; [done|]. split; [set_solver|]. split; [done|].
      intros Hkey. rewrite Hhdr in Hkey. injection Hkey as Hkey. done.
    + assert (token = key) as -> by (destruct (decide (token = key)); [done|by destruct Heq]).
      split; [done|]. split; [set_solver|]. done.
Qed.

End AuthenticationCases.

(** ** Session lifecycle in [src/unnamed/part_000] *)

Section ListDelete.
Context {A : Type}.
Implicit Types (l : list A) (x y : A).

Lemma elem_of_delete_other l i x y :
  x ∈ l -> l !! i = Some y -> x ≠ y -> x ∈ delete i l.
Proof.
  revert i. induction l as [|a l IH]; intros [|i] Hin Hi Hne; simpl in *;
    try by apply elem_of_nil in Hin.
  - injection Hi as ->. by apply elem_of_cons in Hin as [?|?].
  - apply elem_of_cons in Hin as [->|Hin]; [left|right]. by apply IH.
Qed.

Lemma NoDup_delete_not_in l i x :
  NoDup l -> l !! i = Some x -> x ∉ delete i l.
Proof.
  revert i. induction l as [|a l IH]; intros [|i] Hnd Hi; simpl in *;
    try discriminate; apply NoDup_cons in Hnd as [Hnotin Hnd].
  - by injection Hi as ->.
  - apply not_elem_of_cons. split; [|by apply IH].
    intros ->. apply Hnotin. by eapply list_elem_of_lookup_2.
Qed.

Lemma elem_of_delete_lookup l i j x :
  l !! j = Some x -> i ≠ j -> x ∈ delete i l.
Proof.
  revert i j. induction l as [|a l IH]; intros [|i] [|j] Hj Hne; simpl in *;
    try done.
  - by eapply list_elem_of_lookup_2.
  - injection Hj as ->. left.
  - right. apply (IH i j); [done|lia].
Qed.

End ListDelete.

Section Part000Lifecycle.
Import Express Part000 Lifecycle.

Lemma run_app pre post : run (pre ++ post) = foldl step (run pre) post.
Proof. unfold run. apply foldl_app. Qed.

Lemma marker_after_close st i c :
  currentTransport (step st (Close i)) = Some c -> currentTransport st = Some c.
Proof.
  simpl. destruct (closeListeners st !! i) as [[sid t]|]; [|done]. simpl.
  destruct (currentTransport st) as [current|]; [|done].
  by destruct (same_object current t).
Qed.

Lemma delivered_is_marker st req t :
  delivered_to (post_message st req) = Some t -> currentTransport st = Some t.
Proof.
  unfold post_message.
  destruct (currentTransport st) as [c|]; [|done].
  destruct (handlePostMessage c) as [handle|]; [|done].
  by destruct (handle req) as [r|[r|]].
Qed.

Lemma marker_is_latest evs c :
  currentTransport (run evs) = Some c ->
  ∃ pre now suffix method connect_ok post,
    evs = pre ++ GetSse now suffix method connect_ok :: post
    ∧ no_open post
    ∧ c = mkTransport (next_oid (run pre)) method.
Proof.
  induction evs as [|ev evs IH] using rev_ind; [done|].
  rewrite run_snoc. destruct ev as [now suffix method ok|i|req].
  - intros [= <-]. exists evs, now, suffix, method, ok, [].
    split; [done|]. split; [constructor|done].
  - intros Hc%marker_after_close.
    destruct (IH Hc) as (pre & now & suffix & method & ok & post & -> & Hno & ->).
    exists pre, now, suffix, method, ok, (post ++ [Close i]).
    split; [by rewrite <- app_assoc|]. split; [|done].
    apply Forall_app. split; [done|]. by constructor.
  - intros Hc.
    destruct (IH Hc) as (pre & now & suffix & method & ok & post & -> & Hno & ->).
    exists pre, now, suffix, method, ok, (post ++ [PostMessage req]).
    split; [by rewrite <- app_assoc|]. split; [|done].
    apply Forall_app. split; [done|]. by constructor.
Qed.

(** X12: in every run, a posted message is only ever handed to the
    transport of the connection opened last: whenever the router delivers,
    the receiving transport is the one the last [GET /sse] of the run
    created.  An older session gets no message, and gets none again after
    a newer one has closed. *)
Theorem router_delivers_to_latest (evs : list Event) (req : Request)
    (t : SSEServerTransport) :
  delivered_to (post_message (run evs) req) = Some t ->
  ∃ pre now suffix method connect_ok post,
    evs = pre ++ GetSse now suffix method connect_ok :: post
    ∧ no_open post
    ∧ t = mkTransport (next_oid (run pre)) method.
Proof. intros Hd%delivered_is_marker. by apply marker_is_latest. Qed.

Lemma router_delivers_to_latest_witness :
  ∃ pre now suffix method connect_ok post,
    Scenarios.two_sessions = pre ++ GetSse now suffix method connect_ok :: post
    ∧ no_open post
    ∧ mkTransport 2 Scenarios.accepting = mkTransport (next_oid (run pre)) method.
Proof.
  apply (router_delivers_to_latest Scenarios.two_sessions Scenarios.to_first).
  by vm_compute.
Defined.

(** While every [connect] returns, each registered identifier and the
    marked transport belong to a pending close listener. *)
Lemma listeners_cover evs :
  part000_connects evs ->
  (∀ sid, is_Some (JSMap.get (transports (run evs)) sid) ->
          ∃ t, (sid, t) ∈ closeListeners (run evs))
  ∧ (∀ c, currentTransport (run evs) = Some c ->
          ∃ sid, (sid, c) ∈ closeListeners (run evs)).
Proof.
  induction evs as [|ev evs IH] using rev_ind; intros Hok.
  - split; [|done]. intros sid [e He]. unfold run, JSMap.get in He. simpl in He.
    by rewrite lookup_empty in He.
  - apply Forall_app in Hok as [Hok Hev]. rewrite Forall_singleton in Hev.
    destruct (IH Hok) as [Hreg Hmark]. rewrite run_snoc.
    destruct ev as [now suffix method ok|i|req]; [| |done].
    + simpl in Hev. subst ok. simpl. split.
      * intros sid Hsome.
        destruct (decide (sid = sessionId now suffix)) as [->|Hne].
        -- eexists. apply elem_of_app. right. left.
        -- rewrite get_set_ne in Hsome by done.
           destruct (Hreg sid Hsome) as [t Ht]. exists t.
           apply elem_of_app. by left.
      * intros c [= <-]. eexists. apply elem_of_app. right. left.
    + simpl. destruct (closeListeners (run evs) !! i) as [[sid t]|] eqn:Hi; [|done].
      simpl. split.
      * intros sid' [e [Hne He]%get_delete_Some].
        destruct (Hreg sid') as [t' Ht']; [by exists e|].
        exists t'. apply (elem_of_delete_other _ _ _ (sid, t)); [done..|].
        by intros [= ? _].
      * intros c Hc.
        destruct (currentTransport (run evs)) as [current|] eqn:Hcur; [|done].
        destruct (same_object current t) eqn:Hsame; [done|].
        injection Hc as <-.
        destruct (Hmark current eq_refl) as [sid' Hin]. exists sid'.
        apply (elem_of_delete_other _ _ _ (sid, t)); [done..|].
        intros [= _ ->]. by rewrite same_object_refl in Hsame.
Qed.

(** X13: when every [connect] of a run returned and every close listener
    has fired, nothing is left behind: the registry is empty, the marker is
    [null] and a posted message is answered 202.  This holds even when
    session identifiers collided. *)
Theorem all_closed_nothing_left (evs : list Event) :
  part000_connects evs -> closeListeners (run evs) = [] ->
  transports (run evs) = ∅
  ∧ JSMap.size (transports (run evs)) = 0%nat
  ∧ currentTransport (run evs) = None
  ∧ ∀ req, post_message (run evs) req = mkRouted None (mkResponse 202 None).
Proof.
  intros Hok Hnone. destruct (listeners_cover evs Hok) as [Hreg Hmark].
  rewrite Hnone in Hreg, Hmark.
  assert (Hempty : transports (run evs) = ∅).
  { apply map_empty. intros sid.
    destruct (transports (run evs) !! sid) as [e|] eqn:He; [|done].
    destruct (Hreg sid) as [t Ht]; [by exists e|]. by apply elem_of_nil in Ht. }
  assert (Hcur : currentTransport (run evs) = None).
  { destruct (currentTransport (run evs)) as [c|]; [|done].
    destruct (Hmark c eq_refl) as [sid Hin]. by apply elem_of_nil in Hin. }
  split; [done|]. split; [|split; [done|]].
  - unfold JSMap.size. rewrite Hempty. apply map_size_empty.
  - intros req. by apply accepted_without_marker.
Qed.

Lemma all_closed_nothing_left_witness :
  transports (run (Scenarios.colliding ++ [Close 0%nat])) = ∅
  ∧ currentTransport (run (Scenarios.colliding ++ [Close 0%nat])) = None.
Proof.
  destruct (all_closed_nothing_left (Scenarios.colliding ++ [Close 0%nat]))
    as (Hempty & _ & Hcur & _).
  - unfold part000_connects. apply Forall_forall. intros ev Hin.
    repeat (apply elem_of_cons in Hin as [->|Hin]); try done.
    by apply elem_of_nil in Hin.
  - by vm_compute.
  - by split.
Defined.

End Part000Lifecycle.

Section Part000Leak.
Import Express Part000 Lifecycle.

(** A registered entry that no pending listener names survives every
    further event that does not reuse its identifier. *)
Lemma unlistened_entry_stays sid e post st :
  JSMap.get (transports st) sid = Some e ->
  (∀ t, (sid, t) ∉ closeListeners st) ->
  sid ∉ generated_ids post ->
  JSMap.get (transports (foldl step st post)) sid = Some e
  ∧ ∀ t, (sid, t) ∉ closeListeners (foldl step st post).
Proof.
  revert st. induction post as [|ev post IH]; intros st Hget Hnone Hfresh; [done|].
  simpl. destruct ev as [now suffix method ok|i|req].
  - unfold generated_ids in Hfresh. simpl in Hfresh.
    apply not_elem_of_cons in Hfresh as [Hne Hfresh].
    apply IH; [| |done]; simpl.
    + by rewrite get_set_ne.
    + intros t Hin.
      assert (Hold : (sid, t) ∈ closeListeners st); [|by apply (Hnone t)].
      destruct ok; [|done].
      apply elem_of_app in Hin as [Hin|Hin]; [done|].
      apply list_elem_of_singleton in Hin. by injection Hin as ? _.
  - apply IH; [| |done]; simpl;
      destruct (closeListeners st !! i) as [[sid' t']|] eqn:Hi; try done; simpl.
    + rewrite get_delete_ne; [done|]. intros ->.
      apply (Hnone t'). by eapply list_elem_of_lookup_2.
    + intros t Hin%list_elem_of_delete_inv. by apply (Hnone t).
  - by apply IH.
Qed.

(** X14: a session whose [connect] threw is never unregistered.  The
    [catch] answers 500 and installs no close listener, so in any run with
    pairwise distinct identifiers the entry made for that session is still
    in the registry after every later event, and [transports.size] stays
    above zero. *)
Theorem failed_connect_leaks (pre post : list Event) (now : Z) (suffix : jsstring)
    (method : option (Request -> PostOutcome)) :
  NoDup (generated_ids (pre ++ GetSse now suffix method false :: post)) ->
  let final := run (pre ++ GetSse now suffix method false :: post) in
  JSMap.get (transports final) (sessionId now suffix)
  = Some (mkEntry (mkTransport (next_oid (run pre)) method)
                  (mkServer (S (next_oid (run pre)))))
  ∧ (∀ t, (sessionId now suffix, t) ∉ closeListeners final)
  ∧ (0 < JSMap.size (transports final))%nat.
Proof.
  intros Hnd final. subst final.
  unfold generated_ids in Hnd. rewrite omap_app in Hnd. simpl in Hnd.
  fold (generated_ids pre) in Hnd. fold (generated_ids post) in Hnd.
  apply NoDup_app in Hnd as (Hpre & Hdisj & Hrest).
  apply NoDup_cons in Hrest as [Hfresh _].
  destruct (run_invariant pre Hpre) as (_ & _ & _ & Hls).
  rewrite run_app. simpl.
  destruct (unlistened_entry_stays (sessionId now suffix)
              (mkEntry (mkTransport (next_oid (run pre)) method)
                       (mkServer (S (next_oid (run pre)))))
              post (get_sse now suffix method false (run pre)))
    as [Hget Hnone]; [apply get_set_eq| |done|].
  - intros t Hin. simpl in Hin. apply (Hdisj (sessionId now suffix)).
    + by apply (Hls _ t).
    + left.
  - split; [done|]. split; [done|].
    unfold JSMap.size, JSMap.get in *.
    destruct (decide (size (transports
                (foldl step (get_sse now suffix method false (run pre)) post)) = 0%nat))
      as [Hzero|Hpos]; [|lia].
    apply map_size_empty_iff in Hzero. rewrite Hzero, lookup_empty in Hget.
    discriminate.
Qed.

Lemma failed_connect_leaks_witness :
  is_Some (JSMap.get
    (transports (run ([GetSse 1700000000000 (js "k3x9a") Scenarios.accepting false]
                      ++ [GetSse 1700000001000 (js "p0q7z") Scenarios.accepting true;
                          Close 0%nat])))
    (sessionId 1700000000000 (js "k3x9a"))).
Proof.
  destruct (failed_connect_leaks []
              [GetSse 1700000001000 (js "p0q7z") Scenarios.accepting true; Close 0%nat]
              1700000000000 (js "k3x9a") Scenarios.accepting) as (Hget & _).
  - apply (bool_decide_unpack _). by vm_compute.
  - eexists. exact Hget.
Defined.

(** With distinct identifiers and every [connect] returning, the pending
    listeners name distinct identifiers, all of them registered, and the
    registry has as many entries as there are listeners. *)
Lemma size_counts_listeners evs :
  NoDup (generated_ids evs) -> part000_connects evs ->
  NoDup (closeListeners (run evs)).*1
  ∧ (∀ sid, sid ∈ (closeListeners (run evs)).*1 ->
            is_Some (JSMap.get (transports (run evs)) sid))
  ∧ JSMap.size (transports (run evs)) = length (closeListeners (run evs)).
Proof.
  induction evs as [|ev evs IH] using rev_ind; intros Hnd Hok.
  - split; [constructor|]. split; [|done].
    intros sid Hin. by apply elem_of_nil in Hin.
  - rewrite generated_ids_snoc in Hnd.
    apply NoDup_app in Hnd as (Hnd & Hdisj & _).
    apply Forall_app in Hok as [Hok Hev]. rewrite Forall_singleton in Hev.
    destruct (IH Hnd Hok) as (Hdistinct & Hreg & Hsize).
    destruct (run_invariant evs Hnd) as (_ & _ & Hkeys & Hls).
    rewrite run_snoc. destruct ev as [now suffix method ok|i|req]; [| |done].
    + simpl in Hev. subst ok. simpl.
      assert (Hfresh : sessionId now suffix ∉ generated_ids evs).
      { intros Hin. apply (Hdisj _ Hin). left. }
      rewrite fmap_app. simpl. split; [|split].
      * apply NoDup_app. split; [done|]. split; [|apply NoDup_singleton].
        intros sid Hin ->%list_elem_of_singleton. apply Hfresh.
        apply list_elem_of_fmap in Hin as ([sid' t] & -> & Hin). by apply (Hls _ t).
      * intros sid [Hin| ->%list_elem_of_singleton]%elem_of_app.
        -- destruct (decide (sid = sessionId now suffix)) as [->|Hne].
           ++ rewrite get_set_eq. by eexists.
           ++ rewrite get_set_ne by done. by apply Hreg.
        -- rewrite get_set_eq. by eexists.
      * unfold JSMap.size, JSMap.set in *.
        rewrite map_size_insert_None, length_app; [simpl; lia|].
        destruct (transports (run evs) !! sessionId now suffix) as [e|] eqn:He; [|done].
        exfalso. apply Hfresh, Hkeys. by exists e.
    + simpl. destruct (closeListeners (run evs) !! i) as [[sid t]|] eqn:Hi; [|done].
      simpl. rewrite list_fmap_delete.
      assert (Hi' : (closeListeners (run evs)).*1 !! i = Some sid)
        by by rewrite list_lookup_fmap, Hi.
      split; [|split].
      * eapply sublist_NoDup; [done|apply sublist_delete].
      * intros sid' Hin.
        assert (sid' ≠ sid).
        { intros ->. by apply (NoDup_delete_not_in _ i sid Hdistinct Hi'). }
        rewrite get_delete_ne by done.
        by apply Hreg, (list_elem_of_delete_inv _ i).
      * unfold JSMap.size, JSMap.delete in *.
        rewrite map_size_delete_Some, length_delete, Hsize; [lia|by eexists|].
        apply Hreg. by eapply list_elem_of_lookup_2.
Qed.

(** X15: [transports.size], which the source logs as the number of active
    sessions, is the number of connections that are open, in every run
    with pairwise distinct identifiers in which every [connect] returned:
    it equals the number of close listeners still pending. *)
Theorem size_is_open_connections (evs : list Event) :
  NoDup (generated_ids evs) -> part000_connects evs ->
  JSMap.size (transports (run evs)) = length (closeListeners (run evs)).
Proof. intros Hnd Hok. by apply size_counts_listeners. Qed.

Lemma size_is_open_connections_witness :
  JSMap.size (transports (run Scenarios.latest_closed)) = 1%nat.
Proof.
  rewrite (size_is_open_connections Scenarios.latest_closed).
  - reflexivity.
  - apply (bool_decide_unpack _). by vm_compute.
  - unfold part000_connects. apply Forall_forall. intros ev Hin.
    repeat (apply elem_of_cons in Hin as [->|Hin]); try done.
    by apply elem_of_nil in Hin.
Defined.

End Part000Leak.

(** ** Session lifecycle in [src/mcp-server/src/index.ts] *)

Section McpServerLifecycle.
Import Express McpServer Lifecycle.

Lemma mcp_run_snoc evs ev : run (evs ++ [ev]) = step (run evs) ev.
Proof. unfold run. by rewrite foldl_app. Qed.

Lemma mcp_run_app pre post : run (pre ++ post) = foldl step (run pre) post.
Proof. unfold run. apply foldl_app. Qed.

Lemma mcp_listeners_generated evs sid :
  sid ∈ closeListeners (run evs) -> sid ∈ generated_ids evs.
Proof.
  induction evs as [|ev evs IH] using rev_ind; [intros Hin; by apply elem_of_nil in Hin|].
  rewrite mcp_run_snoc. unfold generated_ids in *. rewrite omap_app.
  rewrite elem_of_app. destruct ev as [now ok|i|req]; simpl.
  - destruct ok; [|intros Hin; left; by apply IH].
    intros [Hin| ->%list_elem_of_singleton]%elem_of_app; [left; by apply IH|].
    right. left.
  - destruct (closeListeners (run evs) !! i) eqn:Hi; simpl;
      [|intros Hin; left; by apply IH].
    intros Hin%list_elem_of_delete_inv. left. by apply IH.
  - intros Hin. left. by apply IH.
Qed.

Lemma mcp_listeners_cover evs :
  mcp_connects evs ->
  ∀ sid, is_Some (JSMap.get (transports (run evs)) sid) ->
         sid ∈ closeListeners (run evs).
Proof.
  induction evs as [|ev evs IH] using rev_ind; intros Hok sid.
  - intros [e He]. unfold run, JSMap.get in He. simpl in He.
    by rewrite lookup_empty in He.
  - apply Forall_app in Hok as [Hok Hev]. rewrite Forall_singleton in Hev.
    rewrite mcp_run_snoc. destruct ev as [now ok|i|req]; [| |by apply IH].
    + simpl in Hev. subst ok. simpl. intros Hsome. apply elem_of_app.
      destruct (decide (sid = sessionId now)) as [->|Hne]; [right; left|].
      left. apply IH; [done|]. by rewrite get_set_ne in Hsome.
    + simpl. destruct (closeListeners (run evs) !! i) as [sid'|] eqn:Hi;
        [|by apply IH].
      simpl. intros [e [Hne He]%get_delete_Some].
      apply (elem_of_delete_other _ _ _ sid'); [|done..].
      apply IH; [done|]. by exists e.
Qed.

(** X16: in [src/mcp-server/src/index.ts], when every [connect] returned
    and every close listener has fired, the registry is empty, whether or
    not session identifiers collided. *)
Theorem mcp_all_closed_empty (evs : list Event) :
  mcp_connects evs -> closeListeners (run evs) = [] ->
  transports (run evs) = ∅ ∧ JSMap.size (transports (run evs)) = 0%nat.
Proof.
  intros Hok Hnone.
  assert (Hempty : transports (run evs) = ∅).
  { apply map_empty. intros sid.
    destruct (transports (run evs) !! sid) as [e|] eqn:He; [|done].
    assert (Hin : sid ∈ closeListeners (run evs))
      by (apply mcp_listeners_cover; [done|by exists e]).
    rewrite Hnone in Hin. by apply elem_of_nil in Hin. }
  split; [done|]. unfold JSMap.size. rewrite Hempty. apply map_size_empty.
Qed.

Lemma mcp_all_closed_empty_witness :
  transports (run [GetSse 1700000000000 true; GetSse 1700000000000 true;
                   Close 1%nat; Close 0%nat]) = ∅.
Proof.
  destruct (mcp_all_closed_empty [GetSse 1700000000000 true; GetSse 1700000000000 true;
                                  Close 1%nat; Close 0%nat]) as [Hempty _].
  - unfold mcp_connects. apply Forall_forall. intros ev Hin.
    repeat (apply elem_of_cons in Hin as [->|Hin]); try done.
    by apply elem_of_nil in Hin.
  - by vm_compute.
  - exact Hempty.
Defined.

Lemma mcp_unlistened_entry_stays sid t post st :
  JSMap.get (transports st) sid = Some t ->
  sid ∉ closeListeners st ->
  sid ∉ generated_ids post ->
  JSMap.get (transports (foldl step st post)) sid = Some t
  ∧ sid ∉ closeListeners (foldl step st post).
Proof.
  revert st. induction post as [|ev post IH]; intros st Hget Hnone Hfresh; [done|].
  simpl. destruct ev as [now ok|i|req].
  - unfold generated_ids in Hfresh. simpl in Hfresh.
    apply not_elem_of_cons in Hfresh as [Hne Hfresh].
    apply IH; [| |done]; simpl.
    + by rewrite get_set_ne.
    + destruct ok; [|done]. apply not_elem_of_app. split; [done|].
      by intros ->%list_elem_of_singleton.
  - apply IH; [| |done]; simpl;
      destruct (closeListeners st !! i) as [sid'|] eqn:Hi; try done; simpl.
    + rewrite get_delete_ne; [done|]. intros ->.
      apply Hnone. by eapply list_elem_of_lookup_2.
    + by intros Hin%list_elem_of_delete_inv.
  - by apply IH.
Qed.

(** X17: in [src/mcp-server/src/index.ts] too, a session whose [connect]
    threw stays registered: with pairwise distinct identifiers, its entry
    is still in the registry after every later event. *)
Theorem mcp_failed_connect_leaks (pre post : list Event) (now : Z) :
  NoDup (generated_ids (pre ++ GetSse now false :: post)) ->
  JSMap.get (transports (run (pre ++ GetSse now false :: post))) (sessionId now)
  = Some (mkTransport (next_oid (run pre))).
Proof.
  intros Hnd.
  unfold generated_ids in Hnd. rewrite omap_app in Hnd. simpl in Hnd.
  fold (generated_ids pre) in Hnd. fold (generated_ids post) in Hnd.
  apply NoDup_app in Hnd as (Hpre & Hdisj & Hrest).
  apply NoDup_cons in Hrest as [Hfresh _].
  rewrite mcp_run_app. simpl.
  apply (mcp_unlistened_entry_stays (sessionId now) _ post
           (get_sse now false (run pre))); [apply get_set_eq| |done].
  simpl. intros Hin%mcp_listeners_generated.
  apply (Hdisj _ Hin). left.
Qed.

Lemma mcp_failed_connect_leaks_witness :
  JSMap.get (transports (run ([GetSse 1700000000000 true]
                              ++ GetSse 1700000000001 false
                              :: [Close 0%nat; GetSse 1700000000002 true])))
            (sessionId 1700000000001)
  = Some (mkTransport 1).
Proof.
  apply (mcp_failed_connect_leaks [GetSse 1700000000000 true]
           [Close 0%nat; GetSse 1700000000002 true] 1700000000001).
  apply (bool_decide_unpack _). by vm_compute.
Defined.

(** X18: when two connections of [src/mcp-server/src/index.ts] are opened
    in the same millisecond they share one registry entry, the one of the
    second; the close of either of them removes it, and the connection that
    is still open is left without an entry while its own close listener is
    still pending. *)
Theorem mcp_collision_unregisters (evs : list Event) (now : Z) (i : nat) :
  let st := run (evs ++ [GetSse now true; GetSse now true]) in
  closeListeners st !! i = Some (sessionId now) ->
  JSMap.get (transports st) (sessionId now) = Some (mkTransport (S (next_oid (run evs))))
  ∧ JSMap.get (transports (step st (Close i))) (sessionId now) = None
  ∧ sessionId now ∈ closeListeners (step st (Close i)).
Proof.
  intros st Hi. subst st. rewrite mcp_run_app in *. simpl in *.
  split; [apply get_set_eq|]. rewrite Hi. simpl. split; [apply get_delete_eq|].
  set (l := closeListeners (run evs)) in *.
  destruct (decide (i = length l)) as [->|Hne].
  - apply (elem_of_delete_lookup _ _ (length (l ++ [sessionId now]))).
    + apply list_lookup_middle. done.
    + rewrite length_app. simpl. lia.
  - apply (elem_of_delete_lookup _ _ (length l)); [|done].
    rewrite <- app_assoc. by apply list_lookup_middle.
Qed.

Lemma mcp_collision_unregisters_witness :
  JSMap.get (transports (run ([] ++ [GetSse 1700000000000 true;
                                      GetSse 1700000000000 true; Close 0%nat])))
            (sessionId 1700000000000) = None.
Proof.
  destruct (mcp_collision_unregisters [] 1700000000000 0) as (_ & Hgone & _).
  - reflexivity.
  - exact Hgone.
Defined.

End McpServerLifecycle.

(** ** A failed [connect] and the most-recent marker *)

Section FailedConnectMarker.
Import Express Part000 Lifecycle.

(** The transports captured by pending listeners were made before the next
    object. *)
Lemma listeners_older evs sid t :
  (sid, t) ∈ closeListeners (run evs) -> (oid t < next_oid (run evs))%nat.
Proof.
  revert sid t. induction evs as [|ev evs IH] using rev_ind; intros sid t.
  - intros Hin. by apply elem_of_nil in Hin.
  - rewrite run_snoc. destruct ev as [now suffix method ok|i|req]; simpl.
    + intros Hin.
      assert (Hcases : (sid, t) ∈ closeListeners (run evs)
                       ∨ t = mkTransport (next_oid (run evs)) method).
      { destruct ok; [|by left].
        apply elem_of_app in Hin as [Hin|Hin]; [by left|].
        apply list_elem_of_singleton in Hin. injection Hin as _ ->. by right. }
      destruct Hcases as [Hold| ->]; [|simpl; lia].
      specialize (IH _ _ Hold). lia.
    + destruct (closeListeners (run evs) !! i) as [[sid' t']|]; simpl;
        [|exact (IH sid t)].
      intros Hin%list_elem_of_delete_inv. by apply (IH sid t).
    + exact (IH sid t).
Qed.

Lemma marker_survives_closes c post st :
  currentTransport st = Some c ->
  (∀ sid t, (sid, t) ∈ closeListeners st -> oid t ≠ oid c) ->
  no_open post ->
  currentTransport (foldl step st post) = Some c.
Proof.
  revert st. induction post as [|ev post IH]; intros st Hc Hother Hno; [done|].
  apply Forall_cons in Hno as [Hev Hno]. simpl.
  destruct ev as [now suffix method ok|i|req]; [done| |by apply IH].
  apply IH; [| |done]; simpl;
    destruct (closeListeners st !! i) as [[sid t]|] eqn:Hi; try done; simpl.
  - rewrite Hc. unfold same_object. rewrite bool_decide_eq_false_2; [done|].
    intros Heq. apply (Hother sid t); [by eapply list_elem_of_lookup_2|done].
  - intros sid' t' Hin%list_elem_of_delete_inv. by apply (Hother sid' t').
Qed.

(** X19: a session whose [connect] threw still takes the most-recent
    marker, and keeps it: it has no close listener, so no close of any
    connection clears the marker, and until another [GET /sse] arrives
    every posted message is handed to that session's transport. *)
Theorem failed_connect_keeps_marker (pre post : list Event) (now : Z)
    (suffix : jsstring) (handle : Request -> PostOutcome) (req : Request) :
  no_open post ->
  let final := run (pre ++ GetSse now suffix (Some handle) false :: post) in
  currentTransport final = Some (mkTransport (next_oid (run pre)) (Some handle))
  ∧ delivered_to (post_message final req)
    = Some (mkTransport (next_oid (run pre)) (Some handle)).
Proof.
  intros Hno final. subst final. rewrite run_app. simpl.
  assert (Hc : currentTransport
                 (foldl step (get_sse now suffix (Some handle) false (run pre)) post)
               = Some (mkTransport (next_oid (run pre)) (Some handle))).
  { apply marker_survives_closes; [done| |done].
    simpl. intros sid t Hin%listeners_older. lia. }
  split; [done|]. unfold post_message. rewrite Hc. simpl.
  by destruct (handle req) as [r|[r|]].
Qed.

Lemma failed_connect_keeps_marker_witness :
  oid <$> delivered_to (post_message
    (run (Scenarios.two_sessions
          ++ GetSse 1700000002000 (js "z9y8x")
               (Some (fun _ => Handled (mkResponse 202 None))) false
          :: [Close 0%nat; Close 0%nat]))
    Scenarios.to_first)
  = Some 4%nat.
Proof.
  destruct (failed_connect_keeps_marker Scenarios.two_sessions
              [Close 0%nat; Close 0%nat] 1700000002000 (js "z9y8x")
              (fun _ => Handled (mkResponse 202 None)) Scenarios.to_first)
    as [_ Hto].
  - unfold no_open. by repeat constructor.
  - rewrite Hto. reflexivity.
Defined.

End FailedConnectMarker.

(** * The registry as the handlers use it *)

Section SessionRegistry.
Import Express.

Lemma size_after_set {V : Type} (m : gmap jsstring V) id v :
  JSMap.size (JSMap.set m id v)
  = if decide (is_Some (JSMap.get m id)) then JSMap.size m else S (JSMap.size m).
Proof.
  unfold JSMap.size, JSMap.set, JSMap.get.
  destruct (decide (is_Some (m !! id))) as [Hsome|Hnone].
  - by apply map_size_insert_Some.
  - apply map_size_insert_None. by apply eq_None_not_Some.
Qed.

Lemma two_sets_one_delete {V : Type} (a b : jsstring) (va vb : V) :
  a ≠ b ->
  (JSMap.size (JSMap.delete (JSMap.set (JSMap.set ∅ a va) b vb) a) = 1%nat
   ∧ JSMap.get (JSMap.delete (JSMap.set (JSMap.set ∅ a va) b vb) a) a = None
   ∧ JSMap.get (JSMap.delete (JSMap.set (JSMap.set ∅ a va) b vb) a) b = Some vb)
  ∧ (JSMap.size (JSMap.delete (JSMap.set (JSMap.set ∅ a va) b vb) b) = 1%nat
     ∧ JSMap.get (JSMap.delete (JSMap.set (JSMap.set ∅ a va) b vb) b) b = None
     ∧ JSMap.get (JSMap.delete (JSMap.set (JSMap.set ∅ a va) b vb) b) a = Some va).
Proof.
  intros Hne. split; (split; [|split]).
  - by rewrite size_two_minus_one.
  - apply get_delete_eq.
  - by rewrite get_delete_ne, get_set_eq.
  - unfold JSMap.size, JSMap.delete, JSMap.set.
    rewrite delete_insert_eq, delete_insert_ne, delete_empty by done.
    rewrite insert_empty. apply map_size_singleton.
  - apply get_delete_eq.
  - by rewrite get_delete_ne, get_set_ne, get_set_eq.
Qed.

(** C3: the registry as [GET /sse] and the close listener of both
    registry variants use it.  Opening a session registers the new
    transport under the generated identifier, as a new entry or in place of
    the entry that identifier had, and leaves every other identifier as it
    was.  The close listener removes the entry of its identifier, leaves
    the others, changes nothing when the identifier is not registered, and
    can fire again without effect.  Looking an identifier up gives the
    registered entry or none.  After two sessions with distinct identifiers
    are opened and the connection of either one closes, exactly one entry
    is left, the other session's. *)
Theorem session_registry_contract :
  (∀ st now suffix method connect_ok,
     let id := Part000.sessionId now suffix in
     let st' := Part000.get_sse now suffix method connect_ok st in
     JSMap.get (Part000.transports st') id
     = Some (Part000.mkEntry (Part000.mkTransport (Part000.next_oid st) method)
                             (Part000.mkServer (S (Part000.next_oid st))))
     ∧ (∀ other, other ≠ id ->
          JSMap.get (Part000.transports st') other
          = JSMap.get (Part000.transports st) other)
     ∧ JSMap.size (Part000.transports st')
       = if decide (is_Some (JSMap.get (Part000.transports st) id))
         then JSMap.size (Part000.transports st)
         else S (JSMap.size (Part000.transports st)))
  ∧ (∀ st id t,
       let st' := Part000.on_close id t st in
       JSMap.get (Part000.transports st') id = None
       ∧ (∀ other, other ≠ id ->
            JSMap.get (Part000.transports st') other
            = JSMap.get (Part000.transports st) other)
       ∧ (JSMap.get (Part000.transports st) id = None ->
          Part000.transports st' = Part000.transports st)
       ∧ Part000.transports (Part000.on_close id t st') = Part000.transports st')
  ∧ (∀ n1 s1 m1 n2 s2 m2,
       Part000.sessionId n1 s1 ≠ Part000.sessionId n2 s2 ->
       let opened := [Part000.GetSse n1 s1 m1 true; Part000.GetSse n2 s2 m2 true] in
       (let st := Part000.run (opened ++ [Part000.Close 0%nat]) in
        JSMap.size (Part000.transports st) = 1%nat
        ∧ JSMap.get (Part000.transports st) (Part000.sessionId n1 s1) = None
        ∧ Part000.transport <$> JSMap.get (Part000.transports st) (Part000.sessionId n2 s2)
          = Some (Part000.mkTransport 2 m2))
       ∧ (let st := Part000.run (opened ++ [Part000.Close 1%nat]) in
          JSMap.size (Part000.transports st) = 1%nat
          ∧ JSMap.get (Part000.transports st) (Part000.sessionId n2 s2) = None
          ∧ Part000.transport <$> JSMap.get (Part000.transports st) (Part000.sessionId n1 s1)
            = Some (Part000.mkTransport 0 m1)))
  ∧ (∀ st now connect_ok,
       let id := McpServer.sessionId now in
       let st' := McpServer.get_sse now connect_ok st in
       JSMap.get (McpServer.transports st') id
       = Some (McpServer.mkTransport (McpServer.next_oid st))
       ∧ (∀ other, other ≠ id ->
            JSMap.get (McpServer.transports st') other
            = JSMap.get (McpServer.transports st) other)
       ∧ JSMap.size (McpServer.transports st')
         = if decide (is_Some (JSMap.get (McpServer.transports st) id))
           then JSMap.size (McpServer.transports st)
           else S (JSMap.size (McpServer.transports st)))
  ∧ (∀ st id,
       let st' := McpServer.on_close id st in
       JSMap.get (McpServer.transports st') id = None
       ∧ (∀ other, other ≠ id ->
            JSMap.get (McpServer.transports st') other
            = JSMap.get (McpServer.transports st) other)
       ∧ (JSMap.get (McpServer.transports st) id = None ->
          McpServer.transports st' = McpServer.transports st)
       ∧ McpServer.transports (McpServer.on_close id st') = McpServer.transports st')
  ∧ (∀ n1 n2,
       McpServer.sessionId n1 ≠ McpServer.sessionId n2 ->
       let opened := [McpServer.GetSse n1 true; McpServer.GetSse n2 true] in
       (let st := McpServer.run (opened ++ [McpServer.Close 0%nat]) in
        JSMap.size (McpServer.transports st) = 1%nat
        ∧ JSMap.get (McpServer.transports st) (McpServer.sessionId n1) = None
        ∧ JSMap.get (McpServer.transports st) (McpServer.sessionId n2)
          = Some (McpServer.mkTransport 1))
       ∧ (let st := McpServer.run (opened ++ [McpServer.Close 1%nat]) in
          JSMap.size (McpServer.transports st) = 1%nat
          ∧ JSMap.get (McpServer.transports st) (McpServer.sessionId n2) = None
          ∧ JSMap.get (McpServer.transports st) (McpServer.sessionId n1)
            = Some (McpServer.mkTransport 0))).
Proof.
  split; [|split; [|split; [|split; [|split]]]].
  - intros st now suffix method ok id st'. subst id st'. simpl.
    split; [apply get_set_eq|]. split; [|apply size_after_set].
    intros other Hne. by apply get_set_ne.
  - intros st id t st'. subst st'. simpl.
    split; [apply get_delete_eq|]. split; [|split].
    + intros other Hne. by apply get_delete_ne.
    + apply delete_absent.
    + apply delete_absent, get_delete_eq.
  - intros n1 s1 m1 n2 s2 m2 Hne opened. subst opened.
    pose (e1 := Part000.mkEntry (Part000.mkTransport 0 m1) (Part000.mkServer 1)).
    pose (e2 := Part000.mkEntry (Part000.mkTransport 2 m2) (Part000.mkServer 3)).
    destruct (two_sets_one_delete (Part000.sessionId n1 s1) (Part000.sessionId n2 s2)
                e1 e2 Hne) as [(Ha1 & Ha2 & Ha3) (Hb1 & Hb2 & Hb3)].
    split; intros st; subst st.
    + change (Part000.transports
                (Part000.run ([Part000.GetSse n1 s1 m1 true; Part000.GetSse n2 s2 m2 true]
                              ++ [Part000.Close 0%nat])))
        with (JSMap.delete (JSMap.set (JSMap.set ∅ (Part000.sessionId n1 s1) e1)
                                      (Part000.sessionId n2 s2) e2)
                           (Part000.sessionId n1 s1)).
      split; [done|]. split; [done|]. by rewrite Ha3.
    + change (Part000.transports
                (Part000.run ([Part000.GetSse n1 s1 m1 true; Part000.GetSse n2 s2 m2 true]
                              ++ [Part000.Close 1%nat])))
        with (JSMap.delete (JSMap.set (JSMap.set ∅ (Part000.sessionId n1 s1) e1)
                                      (Part000.sessionId n2 s2) e2)
                           (Part000.sessionId n2 s2)).
      split; [done|]. split; [done|]. by rewrite Hb3.
  - intros st now ok id st'. subst id st'. simpl.
    split; [apply get_set_eq|]. split; [|apply size_after_set].
    intros other Hne. by apply get_set_ne.
  - intros st id st'. subst st'. simpl.
    split; [apply get_delete_eq|]. split; [|split].
    + intros other Hne. by apply get_delete_ne.
    + apply delete_absent.
    + apply delete_absent, get_delete_eq.
  - intros n1 n2 Hne opened. subst opened.
    destruct (two_sets_one_delete (McpServer.sessionId n1) (McpServer.sessionId n2)
                (McpServer.mkTransport 0) (McpServer.mkTransport 1) Hne)
      as [(Ha1 & Ha2 & Ha3) (Hb1 & Hb2 & Hb3)].
    split; intros st; subst st.
    + change (McpServer.transports
                (McpServer.run ([McpServer.GetSse n1 true; McpServer.GetSse n2 true]
                                ++ [McpServer.Close 0%nat])))
        with (JSMap.delete (JSMap.set (JSMap.set ∅ (McpServer.sessionId n1)
                                                 (McpServer.mkTransport 0))
                                      (McpServer.sessionId n2) (McpServer.mkTransport 1))
                           (McpServer.sessionId n1)).
      done.
    + change (McpServer.transports
                (McpServer.run ([McpServer.GetSse n1 true; McpServer.GetSse n2 true]
                                ++ [McpServer.Close 1%nat])))
        with (JSMap.delete (JSMap.set (JSMap.set ∅ (McpServer.sessionId n1)
                                                 (McpServer.mkTransport 0))
                                      (McpServer.sessionId n2) (McpServer.mkTransport 1))
                           (McpServer.sessionId n2)).
      done.
Qed.

Lemma session_registry_contract_witness :
  (let st := Part000.run (Scenarios.two_sessions ++ [Part000.Close 0%nat]) in
   JSMap.size (Part000.transports st) = 1%nat
   ∧ JSMap.get (Part000.transports st)
       (Part000.sessionId 1700000000000 (js "k3x9a")) = None
   ∧ Part000.transport <$> JSMap.get (Part000.transports st)
       (Part000.sessionId 1700000001000 (js "p0q7z"))
     = Some (Part000.mkTransport 2 Scenarios.accepting))
  ∧ (let st := McpServer.run ([McpServer.GetSse 1700000000000 true;
                               McpServer.GetSse 1700000000001 true]
                              ++ [McpServer.Close 1%nat]) in
     JSMap.size (McpServer.transports st) = 1%nat
     ∧ JSMap.get (McpServer.transports st) (McpServer.sessionId 1700000000001) = None
     ∧ JSMap.get (McpServer.transports st) (McpServer.sessionId 1700000000000)
       = Some (McpServer.mkTransport 0)).
Proof.
  destruct session_registry_contract as (_ & _ & Hpart & _ & _ & Hmcp).
  split.
  - apply (Hpart 1700000000000%Z (js "k3x9a") Scenarios.accepting
                 1700000001000%Z (js "p0q7z") Scenarios.accepting).
    vm_compute. discriminate.
  - apply (Hmcp 1700000000000%Z 1700000000001%Z).
    vm_compute. discriminate.
Defined.

End SessionRegistry.

(** * The message endpoint of [src/src/index.ts] as the application serves it *)

Section SrcEndpoint.
Import Express Auth.

(** X11: the message endpoint of [src/src/index.ts], behind the
    application-level [cors()] and [express.json()].  A request those
    middlewares answer themselves (a body that does not parse, say) gets
    their answer whatever its Authorization header, and [authenticate] is
    not consulted.  A request they pass on is answered 200, 401 or 403 and
    nothing else, 200 exactly when its header is "Bearer " followed by the
    key.  In no case does the endpoint change the state it runs on. *)
Theorem src_message_endpoint {S : Type} (app_use : Request -> Middleware)
    (key : jsstring) (st : S) (req : Request) :
  (App.post_message app_use key st req).2 = st
  ∧ (∀ r, app_use req = Respond r -> (App.post_message app_use key st req).1 = r)
  ∧ (app_use req = Next ->
     status (App.post_message app_use key st req).1 ∈ [200; 401; 403]
     ∧ (status (App.post_message app_use key st req).1 = 200
        ↔ authorization req = Some (js "Bearer " ++ key))).
Proof.
  unfold App.post_message, guarded at 1 2 3 4.
  destruct (app_use req) as [r|].
  - split; [done|]. split; [by intros r' [= <-]|done].
  - destruct (src_post_message_answers key st req) as (Hst & Hin & Hiff).
    split; [done|]. split; [done|]. intros _. by split.
Qed.

Lemma src_message_endpoint_witness :
  App.post_message (fun _ => Respond (mkResponse 400 None)) (API_KEY None)
                   (Part000.run Scenarios.two_sessions)
                   (mkRequest (Some (js "Bearer " ++ API_KEY None)) None JNull)
  = (mkResponse 400 None, Part000.run Scenarios.two_sessions)
  ∧ status (App.post_message (fun _ => Next) (API_KEY None)
              (Part000.run Scenarios.two_sessions)
              (mkRequest (Some (js "Bearer " ++ API_KEY None)) None JNull)).1
    = 200.
Proof.
  split.
  - destruct (src_message_endpoint (fun _ => Respond (mkResponse 400 None))
                (API_KEY None) (Part000.run Scenarios.two_sessions)
                (mkRequest (Some (js "Bearer " ++ API_KEY None)) None JNull))
      as (Hst & Hresp & _).
    apply injective_projections; [by apply Hresp | exact Hst].
  - destruct (src_message_endpoint (fun _ => Next)
                (API_KEY None) (Part000.run Scenarios.two_sessions)
                (mkRequest (Some (js "Bearer " ++ API_KEY None)) None JNull))
      as (_ & _ & Hnext).
    destruct (Hnext eq_refl) as [_ Hiff]. by apply Hiff.
Defined.

End SrcEndpoint.

(** * [calculate] on the arithmetic fragment of [eval] *)

Section Binary64.
Import Tools Arith.












End Binary64.
